(** * SRU Cyberspace: the security manager and the secure server

    A shallow embedding of [security.py] (class [SecurityManager]) and of the
    request pipeline of [secure_server.py], with the properties of the
    specification stated and settled against it.

    Conventions of the model.
    - Text handled by the validators and the sanitizer is a list of
      characters; a character is a code point below 256 (type [ascii]).  The
      character tables ([\s], [\w], [str.lower]) are those of Python 3 on
      that range.
    - [time.time()] is an explicit clock reading, an exact rational number of
      seconds; random draws ([secrets.token_urlsafe], [uuid.uuid4]) are
      explicit inputs as well.
    - Dictionaries are [gmap]s, the block list is a [gset]. *)

From Stdlib Require Import Ascii QArith Qround Lqa DecimalString.
From Stdlib Require String.
From stdpp Require Import gmap strings list sorting.

(** ** Characters and strings *)

Module Text.

Abbreviation text := (list ascii).

Definition txt (s : string) : text := String.list_ascii_of_string s.

Definition code (c : ascii) : N := N_of_ascii c.

Definition between (lo hi : N) (c : ascii) : bool :=
  ((lo <=? code c) && (code c <=? hi))%N.

Definition is_upper : ascii -> bool := between 65 90.
Definition is_lower : ascii -> bool := between 97 122.
Definition is_digit : ascii -> bool := between 48 57.

(** The class [a-zA-Z]. *)
Definition is_letter (c : ascii) : bool := is_upper c || is_lower c.

(** [str.isspace] and the regex class [\s]: TAB, LF, VT, FF, CR, the four
    separators FS GS RS US, SPACE, NEL and NO-BREAK SPACE. *)
Definition is_space (c : ascii) : bool :=
  between 9 13 c || between 28 32 c || (code c =? 133)%N || (code c =? 160)%N.

(** [str.isalnum] on the range: ASCII letters and digits, the ordinal
    indicators, the micro sign, superscript digits, vulgar fractions and the
    accented letters (all of 192..255 but the two operators). *)
Definition is_alnum (c : ascii) : bool :=
  is_letter c || is_digit c
  || (code c =? 170)%N || (code c =? 178)%N || (code c =? 179)%N
  || (code c =? 181)%N || (code c =? 185)%N || (code c =? 186)%N
  || between 188 190 c
  || between 192 214 c || between 216 246 c || between 248 255 c.

(** The regex class [\w]. *)
Definition is_word (c : ascii) : bool := is_alnum c || (code c =? 95)%N.

(** [str.lower] on one character. *)
Definition to_lower (c : ascii) : ascii :=
  if is_upper c || (between 192 222 c && negb (code c =? 215)%N)
  then ascii_of_N (code c + 32)
  else c.

Definition lower (s : text) : text := map to_lower s.

Definition eqc (a b : ascii) : bool := Ascii.eqb a b.

(** Equality up to case, as [re.IGNORECASE] compares a pattern character with
    a subject character. *)
Definition eqc_i (a b : ascii) : bool := Ascii.eqb (to_lower a) (to_lower b).

(** [s.startswith(old)], returning the length of [old] on success. *)
Fixpoint starts_with (old s : text) : bool :=
  match old, s with
  | [], _ => true
  | a :: old', b :: s' => eqc a b && starts_with old' s'
  | _ :: _, [] => false
  end.

Definition prefix_len (old : text) (s : text) : option nat :=
  if starts_with old s then Some (length old) else None.

(** Left-to-right scan shared by [str.replace] and [re.sub]: [m] tells, at
    each position, how many characters a match starting there spans.  A match
    is replaced by [rep] and the scan resumes after it, so matches never
    overlap; [skip] counts the characters of the current match still to be
    dropped.  An empty match leaves the text as it is (the replacement is
    only ever used with matchers that consume at least one character). *)
Fixpoint subst_matches (m : text -> option nat) (rep : text)
    (skip : nat) (s : text) : text :=
  match s with
  | [] => []
  | x :: s' =>
      match skip with
      | S n => subst_matches m rep n s'
      | O =>
          match m s with
          | Some (S n) => rep ++ subst_matches m rep n s'
          | _ => x :: subst_matches m rep 0 s'
          end
      end
  end.

(** Whether [m] matches at some position of [s] (the final, empty position
    included). *)
Fixpoint occurs (m : text -> option nat) (s : text) : bool :=
  match m s with
  | Some _ => true
  | None => match s with [] => false | _ :: s' => occurs m s' end
  end.

(** [s.replace(old, new)] for a non-empty [old]. *)
Definition str_replace (old new : text) (s : text) : text :=
  subst_matches (prefix_len old) new 0 s.

(** [old in s]. *)
Definition contains (old : text) (s : text) : bool := occurs (prefix_len old) s.

Fixpoint lstrip (s : text) : text :=
  match s with
  | x :: s' => if is_space x then lstrip s' else s
  | [] => []
  end.

Definition rstrip (s : text) : text := rev (lstrip (rev s)).

(** [s.strip()]. *)
Definition strip (s : text) : text := rstrip (lstrip s).

(** [html.escape(s)] with its default [quote=True]: five replacements in the
    library's order, the ampersand first. *)
Definition html_escape (s : text) : text :=
  let s := str_replace (txt "&") (txt "&amp;") s in
  let s := str_replace (txt "<") (txt "&lt;") s in
  let s := str_replace (txt ">") (txt "&gt;") s in
  let s := str_replace ["034"%char] (txt "&quot;") s in
  str_replace (txt "'") (txt "&#x27;") s.

End Text.

(** ** Regular expressions

    The patterns of the program are sequences of single-character classes,
    each with a quantifier, possibly closed by [$].  The matcher is a
    backtracking one with the priorities of Python's [re]: a greedy
    quantifier tries the longest repetition first, a lazy one the
    shortest. *)

Module Re.
Import Text.

Inductive quant : Type :=
  | Exactly (n : nat)        (* c{n}; a plain character is [Exactly 1] *)
  | Greedy (n : nat)         (* c{n,}: [*] is [Greedy 0], [+] is [Greedy 1] *)
  | Lazy (n : nat).          (* c{n,}?: [*?] is [Lazy 0] *)

Inductive item : Type :=
  | Cls (c : ascii -> bool) (q : quant)
  | Eos.                     (* [$] without re.MULTILINE *)

Abbreviation pattern := (list item).

(** Continuations return the number of characters the rest of the pattern
    consumed. *)
Fixpoint exactly (n : nat) (c : ascii -> bool) (k : text -> option nat)
    (s : text) : option nat :=
  match n with
  | O => k s
  | S n' =>
      match s with
      | x :: s' => if c x then S <$> exactly n' c k s' else None
      | [] => None
      end
  end.

Fixpoint greedy (c : ascii -> bool) (k : text -> option nat)
    (s : text) : option nat :=
  match s with
  | x :: s' =>
      if c x then
        match greedy c k s' with
        | Some n => Some (S n)
        | None => k s
        end
      else k s
  | [] => k []
  end.

Fixpoint lazy (c : ascii -> bool) (k : text -> option nat)
    (s : text) : option nat :=
  match k s with
  | Some n => Some n
  | None =>
      match s with
      | x :: s' => if c x then S <$> lazy c k s' else None
      | [] => None
      end
  end.

(** [$] holds at the end of the text and just before a final newline. *)
Definition at_eos (s : text) : bool :=
  match s with
  | [] => true
  | [c] => eqc c "010"%char
  | _ => false
  end.

(** Match of [p] at the start of [s]: the length of the first match in
    backtracking order. *)
Fixpoint match_here (p : pattern) (s : text) : option nat :=
  match p with
  | [] => Some 0
  | Cls c (Exactly n) :: p' => exactly n c (match_here p') s
  | Cls c (Greedy n) :: p' => exactly n c (greedy c (match_here p')) s
  | Cls c (Lazy n) :: p' => exactly n c (lazy c (match_here p')) s
  | Eos :: p' => if at_eos s then match_here p' s else None
  end.

(** [re.match(p, s)] is not None, for a pattern written with a leading [^]
    (which [re.match] implies anyway). *)
Definition re_match (p : pattern) (s : text) : bool :=
  bool_decide (is_Some (match_here p s)).

(** [re.search(p, s)] is not None, for a pattern without anchors. *)
Definition re_search (p : pattern) (s : text) : bool := occurs (match_here p) s.

(** [re.sub(p, '', s)], for a pattern without anchors. *)
Definition re_sub (p : pattern) (s : text) : text :=
  subst_matches (match_here p) [] 0 s.

(** A literal string, case-sensitive or under [re.IGNORECASE]. *)
Definition lit (s : text) : pattern := map (fun a => Cls (eqc a) (Exactly 1)) s.
Definition lit_i (s : text) : pattern := map (fun a => Cls (eqc_i a) (Exactly 1)) s.

End Re.

(** ** The pure operations of [SecurityManager] *)

Module Validators.
Import Text Re.

(** The list [dangerous_chars] of [sanitize_input]. *)
Definition dangerous_chars : list text :=
  [ txt "<"; txt ">"; ["034"%char]; txt "'"; txt "&";
    txt "javascript:"; txt "vbscript:"; txt "onload"; txt "onerror" ].

Definition any_char (c : ascii) : bool := true.
Definition not_gt (c : ascii) : bool := negb (eqc ">" c).

(** [<script[^>]*>.*?</script>] under IGNORECASE and DOTALL. *)
Definition script_pattern : pattern :=
  lit_i (txt "<script") ++ [Cls not_gt (Greedy 0); Cls (eqc_i ">") (Exactly 1);
  Cls any_char (Lazy 0)] ++ lit_i (txt "</script>").

(** [on\w+\s*=] under IGNORECASE. *)
Definition event_pattern : pattern :=
  lit_i (txt "on") ++ [Cls is_word (Greedy 1); Cls is_space (Greedy 0);
  Cls (eqc_i "=") (Exactly 1)].

(** The loop [for char in dangerous_chars: ... replace(char, '')]. *)
Definition remove_dangerous (sanitized : text) : text :=
  foldl (fun acc char => str_replace char [] acc) sanitized dangerous_chars.

Definition sanitize_input (user_input : text) : text :=
  match user_input with
  | [] => []
  | _ =>
      let sanitized := remove_dangerous user_input in
      let sanitized := html_escape sanitized in
      let sanitized := re_sub script_pattern sanitized in
      let sanitized := re_sub event_pattern sanitized in
      strip sanitized
  end.

Definition email_local (c : ascii) : bool :=
  is_letter c || is_digit c
  || eqc "." c || eqc "_" c || eqc "%" c || eqc "+" c || eqc "-" c.

Definition email_domain (c : ascii) : bool :=
  is_letter c || is_digit c || eqc "." c || eqc "-" c.

(** [^[a-zA-Z0-9._%+-]+@[a-zA-Z0-9.-]+\.[a-zA-Z]{2,}$] *)
Definition email_pattern : pattern :=
  [ Cls email_local (Greedy 1); Cls (eqc "@") (Exactly 1);
    Cls email_domain (Greedy 1); Cls (eqc ".") (Exactly 1);
    Cls is_letter (Greedy 2); Eos ].

(** The list [suspicious_patterns] of [validate_email], each searched under
    IGNORECASE. *)
Definition email_suspicious_patterns : list pattern :=
  [ lit_i (txt "javascript:"); lit_i (txt "vbscript:"); lit_i (txt "data:");
    lit_i (txt "<script"); lit_i (txt "javascript("); lit_i (txt "vbscript(") ].

Definition validate_email (email : text) : bool :=
  match email with
  | [] => false
  | _ =>
      if negb (re_match email_pattern email) then false
      else if existsb (fun p => re_search p email) email_suspicious_patterns
      then false
      else true
  end.

Definition name_char (c : ascii) : bool :=
  is_letter c || is_space c || eqc "'" c || eqc "-" c.

(** [^[a-zA-Z\s\'-]+$] *)
Definition name_pattern : pattern := [ Cls name_char (Greedy 1); Eos ].

Definition validate_name (name : text) : bool :=
  match name with
  | [] => false
  | _ =>
      if negb (re_match name_pattern name) then false
      else if (length name <? 2)%nat || (50 <? length name)%nat then false
      else true
  end.

(** The list [suspicious_patterns] of [is_suspicious_request], repetitions
    included. *)
Definition request_suspicious_patterns : list pattern :=
  map (fun w => lit_i (txt w))
    [ "<script"; "javascript:"; "vbscript:"; "data:"; "<iframe"; "<object";
      "<embed"; "<form"; "<input"; "<textarea"; "<select"; "<button"; "<link";
      "<meta"; "<style"; "<base"; "<bgsound"; "<link"; "<meta"; "<title";
      "<xmp"; "<plaintext"; "<listing"; "<marquee"; "<applet"; "<param";
      "<embed"; "<object"; "<basefont"; "<isindex"; "<dir"; "<menu";
      "<listing"; "<plaintext"; "<xmp"; "<nextid"; "<comment"; "<listing";
      "<plaintext"; "<xmp"; "<nextid"; "<comment"; "<listing"; "<plaintext";
      "<xmp"; "<nextid"; "<comment" ].

(** [request_data] is given by its [str(...)]. *)
Definition is_suspicious_request (request_data : text) : bool :=
  let request_str := lower request_data in
  existsb (fun p => re_search p request_str) request_suspicious_patterns.

End Validators.

(** ** The state of [SecurityManager] and the operations on it *)

Module Manager.

(** [a < b] on clock readings, as a boolean. *)
Definition Qltb (a b : Q) : bool := (Qnum a * QDen b <? Qnum b * QDen a)%Z.

(** One entry of [csrf_tokens]: the dictionary with the keys ['token'] and
    ['timestamp']. *)
Record csrf_record : Type := CsrfRecord { token : string; timestamp : Q }.

Record t : Type := Build {
  csrf_tokens : gmap string csrf_record;
  rate_limit_data : gmap string (list Q);
  blocked_ips : gset string
}.

(** [SecurityManager()] *)
Definition init : t := Build ∅ ∅ ∅.

Definition set_csrf_tokens (f : gmap string csrf_record -> gmap string csrf_record)
    (sm : t) : t :=
  Build (f (csrf_tokens sm)) (rate_limit_data sm) (blocked_ips sm).

Definition set_rate_limit_data (f : gmap string (list Q) -> gmap string (list Q))
    (sm : t) : t :=
  Build (csrf_tokens sm) (f (rate_limit_data sm)) (blocked_ips sm).

Definition set_blocked_ips (f : gset string -> gset string) (sm : t) : t :=
  Build (csrf_tokens sm) (rate_limit_data sm) (f (blocked_ips sm)).

(** [generate_csrf_token]: [fresh] is the value drawn by
    [secrets.token_urlsafe(32)], [now] the reading of [time.time()]. *)
Definition generate_csrf_token (session_id : string) (fresh : string) (now : Q)
    (sm : t) : string * t :=
  (fresh, set_csrf_tokens (insert session_id (CsrfRecord fresh now)) sm).

(** [validate_csrf_token]: the presented token is [None] when the caller
    passes Python's [None] (a form without the field). *)
Definition validate_csrf_token (session_id : string) (tok : option string)
    (now : Q) (sm : t) : bool * t :=
  match csrf_tokens sm !! session_id with
  | None => (false, sm)
  | Some stored_data =>
      if bool_decide (Some (token stored_data) ≠ tok) then (false, sm)
      else if Qltb 3600 (now - timestamp stored_data)
      then (false, set_csrf_tokens (delete session_id) sm)
      else (true, sm)
  end.

(** The list comprehension of [rate_limit]. *)
Definition recent (now window : Q) (reqs : list Q) : list Q :=
  List.filter (fun req_time => Qltb (now - req_time) window) reqs.

Definition rate_limit (ip_address : string) (limit : Z) (window : Q) (now : Q)
    (sm : t) : bool * t :=
  let current_time := now in
  let data :=
    match rate_limit_data sm !! ip_address with
    | None => <[ip_address := []]> (rate_limit_data sm)
    | Some _ => rate_limit_data sm
    end in
  let kept := recent current_time window (default [] (data !! ip_address)) in
  let data := <[ip_address := kept]> data in
  if (limit <=? Z.of_nat (length kept))%Z
  then (false, set_rate_limit_data (fun _ => data) sm)
  else (true, set_rate_limit_data (fun _ => <[ip_address := kept ++ [current_time]]> data) sm).

(** [clean_session_data] *)
Definition clean_session_data (now : Q) (sm : t) : t :=
  let current_time := now in
  let sm :=
    set_csrf_tokens
      (filter (fun kv => Qltb 3600 (current_time - timestamp kv.2) = false)) sm in
  set_rate_limit_data
    (omap (fun reqs =>
       match recent current_time 300 reqs with
       | [] => None
       | kept => Some kept
       end)) sm.

End Manager.

(** ** The secure server

    Handlers run in a small monad: they read and update the process-wide
    [SecurityManager], the session of the current request and a trace of the
    [SecurityManager] methods they invoke, and they may raise. *)

Module Server.
Import Text Re Validators Manager.

(** Python exceptions the handlers can meet.  All three are subclasses of
    [Exception]; [HTTPException code] is what Flask's [abort(code)] raises
    (werkzeug's [HTTPException] derives from [Exception]). *)
Inductive exn : Type :=
  | HTTPException (code : Z)
  | KeyError (key : string)
  | OSError (file : string).

Inductive result (A : Type) : Type :=
  | Ok (a : A)
  | Raise (e : exn).
Arguments Ok {A} a.
Arguments Raise {A} e.

(** Methods of the global [security_manager]. *)
Inductive call : Type :=
  | CallRateLimit | CallIsSuspicious | CallClean | CallGenerateCsrf
  | CallValidateCsrf | CallValidateName | CallValidateEmail | CallSanitize.

Record world : Type := World {
  sm : Manager.t;
  session : gmap string string;
  calls : list call
}.

Definition M (A : Type) : Type := world -> result A * world.

#[global] Instance M_ret : MRet M := fun A a w => (Ok a, w).

#[global] Instance M_bind : MBind M := fun A B f m w =>
  match m w with
  | (Ok a, w') => f a w'
  | (Raise e, w') => (Raise e, w')
  end.

Definition raise {A : Type} (e : exn) : M A := fun w => (Raise e, w).

(** [abort(code)] *)
Definition abort {A : Type} (code : Z) : M A := raise (HTTPException code).

(** [try: body except Exception as e: handler]: every exception of [exn] is
    an [Exception]; what [body] did to the state before raising stays
    done. *)
Definition try_except {A : Type} (body : M A) (handler : exn -> M A) : M A :=
  fun w =>
    match body w with
    | (Raise e, w') => handler e w'
    | r => r
    end.

Definition when (b : bool) (m : M unit) : M unit := if b then m else mret tt.

Definition read_sm {A : Type} (f : Manager.t -> A) : M A :=
  fun w => (Ok (f (sm w)), w).

Definition modify_sm (f : Manager.t -> Manager.t) : M unit :=
  fun w => (Ok tt, World (f (sm w)) (session w) (calls w)).

(** A call of a state-changing method of [security_manager]. *)
Definition invoke {A : Type} (c : call) (f : Manager.t -> A * Manager.t) : M A :=
  fun w =>
    let '(a, sm') := f (sm w) in
    (Ok a, World sm' (session w) (calls w ++ [c])).

(** A call of a pure method of [security_manager]. *)
Definition invoke_pure {A : Type} (c : call) (a : A) : M A :=
  fun w => (Ok a, World (sm w) (session w) (calls w ++ [c])).

(** [key in session], [session[key]] and [session[key] = v]. *)
Definition session_has (key : string) : M bool :=
  fun w => (Ok (bool_decide (is_Some (session w !! key))), w).

Definition session_get (key : string) : M string :=
  fun w =>
    match session w !! key with
    | Some v => (Ok v, w)
    | None => (Raise (KeyError key), w)
    end.

Definition session_set (key v : string) : M unit :=
  fun w => (Ok tt, World (sm w) (<[key := v]> (session w)) (calls w)).

(** What a request brings from outside the program: the clock readings, one
    per [time.time()] call site, the random draws, the files on disk and the
    verdict of the Flask-Limiter extension: whether the limits that bind
    the request's view (the default ones of [Limiter], or the one of the
    view's own [@limiter.limit]) still have room for it. *)
Record env : Type := Env {
  t_rate : Q;          (* in rate_limit *)
  t_tick : Q;          (* time.time() % 300 in security_checks *)
  t_clean : Q;         (* in clean_session_data *)
  t_issue : Q;         (* in generate_csrf_token *)
  t_validate : Q;      (* in validate_csrf_token *)
  t_health : Q;        (* in health_check *)
  fresh_uuid : string; (* str(uuid.uuid4()) *)
  fresh_token : string;(* secrets.token_urlsafe(32) *)
  files : gmap string text;
  limiter_allows : bool
}.

Record request : Type := Request {
  remote_addr : string;
  method : string;
  path : string;
  form : gmap string string;
  repr : text          (* str(request) *)
}.

Inductive json : Type :=
  | JStr (s : text)
  | JBool (b : bool)
  | JNum (q : Q).

Inductive body : Type :=
  | Content (s : text)
  | Json (fields : list (string * json)).

Record Response : Type := MkResponse {
  status : Z;
  payload : body;
  headers : gmap string string
}.

Definition set_header (k v : string) (r : Response) : Response :=
  MkResponse (status r) (payload r) (<[k := v]> (headers r)).

Definition with_status (code : Z) (r : Response) : Response :=
  MkResponse code (payload r) (headers r).

Definition jsonify (fields : list (string * json)) : Response :=
  MkResponse 200 (Json fields) {["Content-Type" := "application/json"]}.

Definition make_response (content : text) : Response :=
  MkResponse 200 (Content content) {["Content-Type" := "text/html; charset=utf-8"]}.

Definition error_body (msg : string) : list (string * json) :=
  [("error", JStr (txt msg))].

(** [x % 300] on a clock reading. *)
Definition Qmod (x m : Q) : Q := x - m * inject_Z (Qfloor (x / m)).

(** [security_checks], registered with [@app.before_request]. *)
Definition security_checks (e : env) (req : request) : M unit :=
  try_except
    (let client_ip := remote_addr req in
     blocked ← read_sm (fun s => bool_decide (client_ip ∈ blocked_ips s));
     when blocked (abort 403);;
     allowed ← invoke CallRateLimit (rate_limit client_ip 20 60 (t_rate e));
     when (negb allowed) (abort 429);;
     suspicious ← invoke_pure CallIsSuspicious (is_suspicious_request (repr req));
     when suspicious
       (modify_sm (set_blocked_ips (fun ips => {[client_ip]} ∪ ips));;
        abort 400);;
     known ← session_has "session_id";
     when (negb known) (session_set "session_id" (fresh_uuid e));;
     when (Qltb (Qmod (t_tick e) 300) 1)
       (invoke CallClean (fun s => (tt, clean_session_data (t_clean e) s))))
    (fun _ => abort 500).

Definition csp : string :=
  "default-src 'self'; " +:+
  "script-src 'self' 'unsafe-inline' https://cdnjs.cloudflare.com https://fonts.googleapis.com; " +:+
  "style-src 'self' 'unsafe-inline' https://cdnjs.cloudflare.com https://fonts.googleapis.com; " +:+
  "font-src 'self' https://cdnjs.cloudflare.com https://fonts.gstatic.com; " +:+
  "img-src 'self' data: https:; " +:+
  "connect-src 'self'; " +:+
  "frame-src 'self' https://calendar.google.com; " +:+
  "object-src 'none'; " +:+
  "base-uri 'self'; " +:+
  "form-action 'self'; " +:+
  "frame-ancestors 'none';".

(** [add_security_headers], registered with [@app.after_request]. *)
Definition add_security_headers (response : Response) : Response :=
  let response := set_header "X-Content-Type-Options" "nosniff" response in
  let response := set_header "X-Frame-Options" "DENY" response in
  let response := set_header "X-XSS-Protection" "1; mode=block" response in
  let response :=
    set_header "Referrer-Policy" "strict-origin-when-cross-origin" response in
  let response :=
    set_header "Permissions-Policy" "geolocation=(), microphone=(), camera=()"
      response in
  set_header "Content-Security-Policy" csp response.

Definition read_file (e : env) (name : string) : M text :=
  match files e !! name with
  | Some content => mret content
  | None => raise (OSError name)
  end.

Definition dq : ascii := "034"%char.

(** The hidden field [index] puts before each closing form tag. *)
Definition hidden_field (csrf_token : string) : text :=
  txt "<input type=" ++ [dq] ++ txt "hidden" ++ [dq] ++
  txt " name=" ++ [dq] ++ txt "csrf_token" ++ [dq] ++
  txt " value=" ++ [dq] ++ txt csrf_token ++ [dq] ++ txt "></form>".

Definition index (e : env) : M Response :=
  try_except
    (session_id ← session_get "session_id";
     csrf_token ← invoke CallGenerateCsrf
       (generate_csrf_token session_id (fresh_token e) (t_issue e));
     content ← read_file e "index.html";
     let content := str_replace (txt "</form>") (hidden_field csrf_token) content in
     mret (set_header "Content-Type" "text/html; charset=utf-8"
             (make_response content)))
    (fun _ => abort 500).

Definition styles (e : env) : M Response :=
  try_except
    (content ← read_file e "styles.css";
     mret (set_header "Content-Type" "text/css; charset=utf-8"
             (make_response content)))
    (fun _ => abort 500).

Definition script (e : env) : M Response :=
  try_except
    (content ← read_file e "script.js";
     mret (set_header "Content-Type" "application/javascript; charset=utf-8"
             (make_response content)))
    (fun _ => abort 500).

Definition years : list text :=
  map txt ["freshman"; "sophomore"; "junior"; "senior"; "graduate"].

Definition form_field (req : request) (key : string) : text :=
  strip (txt (default EmptyString (form req !! key))).

Definition thanks (sanitized_name sanitized_email : text) : text :=
  txt "Thank you for joining, " ++ sanitized_name ++
  txt "! We'll be in touch at " ++ sanitized_email ++ txt " soon.".

(** [@limiter.limit(...)] on a view: the extension's wrapper asks the
    limiter before the view's body runs and raises its 429 otherwise; the
    exception leaves from outside the body's own [try]. *)
Definition limiter_limit {A : Type} (e : env) (view : M A) : M A :=
  when (negb (limiter_allows e)) (abort 429);; view.

(** The function under the decorators of [submit_form]. *)
Definition submit_form_body (e : env) (req : request) : M Response :=
  try_except
    (let csrf_token := form req !! "csrf_token" in
     session_id ← session_get "session_id";
     valid ← invoke CallValidateCsrf
       (validate_csrf_token session_id csrf_token (t_validate e));
     if negb valid
     then mret (with_status 403 (jsonify (error_body "Invalid request")))
     else
       let name := form_field req "name" in
       let email := form_field req "email" in
       let year := form_field req "year" in
       name_ok ← invoke_pure CallValidateName (validate_name name);
       if negb name_ok
       then mret (with_status 400 (jsonify (error_body "Invalid name format")))
       else
         email_ok ← invoke_pure CallValidateEmail (validate_email email);
         if negb email_ok
         then mret (with_status 400 (jsonify (error_body "Invalid email format")))
         else if negb (bool_decide (year ∈ years))
         then mret (with_status 400 (jsonify (error_body "Invalid year selection")))
         else
           sanitized_name ← invoke_pure CallSanitize (sanitize_input name);
           sanitized_email ← invoke_pure CallSanitize (sanitize_input email);
           mret (jsonify [("success", JBool true);
                          ("message", JStr (thanks sanitized_name sanitized_email))]))
    (fun _ => mret (with_status 500 (jsonify (error_body "Internal server error")))).

(** The view registered for [/submit-form]: the body under
    [@limiter.limit("5 per minute")]. *)
Definition submit_form (e : env) (req : request) : M Response :=
  limiter_limit e (submit_form_body e req).

Definition health_check (e : env) : M Response :=
  mret (jsonify [("status", JStr (txt "healthy")); ("timestamp", JNum (t_health e))]).

(** The five [@app.errorhandler] functions; another status gets the
    framework's own page, whose text is not modelled. *)
Definition error_handler (code : Z) : Response :=
  if (code =? 400)%Z then with_status 400 (jsonify (error_body "Bad request"))
  else if (code =? 403)%Z then with_status 403 (jsonify (error_body "Access forbidden"))
  else if (code =? 404)%Z then with_status 404 (jsonify (error_body "Resource not found"))
  else if (code =? 429)%Z
  then with_status 429
         (jsonify (error_body "Too many requests. Please try again later."))
  else if (code =? 500)%Z
  then with_status 500 (jsonify (error_body "Internal server error"))
  else with_status code (make_response []).

(** Flask turns an exception that is not an [HTTPException] into its
    internal server error, which the handler for 500 answers. *)
Definition handle_user_exception (ex : exn) : Response :=
  match ex with
  | HTTPException code => error_handler code
  | _ => error_handler 500
  end.

(** The URL map of the five [@app.route] lines, for the methods they name:
    [GET] for the four routes without [methods], [POST] for [/submit-form].
    Another method on one of these paths is taken as a 405 and another path
    as a 404; what Flask adds by itself (the answers to [HEAD] and
    [OPTIONS], the [/static/] folder, redirects) is outside this map, and
    the theorems on statuses speak of the five routes only. *)
Definition dispatch_request (e : env) (req : request) : M Response :=
  let get (h : M Response) : M Response :=
    if bool_decide (method req = "GET") then h else abort 405 in
  if bool_decide (path req = "/") then get (index e)
  else if bool_decide (path req = "/styles.css") then get (styles e)
  else if bool_decide (path req = "/script.js") then get (script e)
  else if bool_decide (path req = "/health") then get (health_check e)
  else if bool_decide (path req = "/submit-form") then
    if bool_decide (method req = "POST") then submit_form e req else abort 405
  else abort 404.

(** The requests that reach a view without a limit of its own: on these
    the [Limiter]'s default limits apply. *)
Definition default_limited (req : request) : bool :=
  bool_decide (method req = "GET") &&
  bool_decide (path req ∈ ["/"; "/styles.css"; "/script.js"; "/health"]).

(** The before-request function that [Limiter(app=app, ...)] registers,
    ahead of [security_checks]: it applies the default limits to a request
    for a view that carries none; a request for a view with
    [@limiter.limit] is left to the view's wrapper, and a request that
    matches no view is not counted. *)
Definition check_request_limit (e : env) (req : request) : M unit :=
  when (default_limited req && negb (limiter_allows e)) (abort 429).

(** Flask's handling of one request: the before-request functions in the
    order of their registration ([check_request_limit], then
    [security_checks]), the route, an error handler for whatever was raised,
    and at last the after-request function on the response. *)
Definition full_dispatch_request (e : env) (req : request) (w : world)
    : Response * world :=
  let run : M Response :=
    check_request_limit e req;;
    security_checks e req;;
    dispatch_request e req in
  match run w with
  | (Ok rv, w') => (rv, w')
  | (Raise ex, w') => (handle_user_exception ex, w')
  end.

Definition handle_request (e : env) (req : request) (w : world)
    : Response * world :=
  let '(rv, w') := full_dispatch_request e req w in
  (add_security_headers rv, w').

End Server.

(** ** Predicates used in the statements *)

Module Props.
Import Text Re.

(** An invariant [I s n] of "the pattern matched the first [n] characters of
    [s]" is kept by a class when consuming one more character keeps it, and is
    established by a continuation when each of its answers satisfies it. *)
Definition preserves (I : text -> nat -> Prop) (c : ascii -> bool) : Prop :=
  forall x s n, c x = true -> I s n -> I (x :: s) (S n).

Definition sound_k (I : text -> nat -> Prop) (k : text -> option nat) : Prop :=
  forall s n, k s = Some n -> I s n.

Definition preserves_all (I : text -> nat -> Prop) (p : pattern) : Prop :=
  Forall (fun it => match it with Cls c _ => preserves I c | Eos => True end) p.

(** The five characters [sanitize_input] deletes first. *)
Definition special (c : ascii) : Prop :=
  c = "<"%char \/ c = ">"%char \/ c = "034"%char \/ c = "'"%char \/ c = "&"%char.

(** The multi-character entries of [dangerous_chars]. *)
Definition dangerous_words : list text :=
  [ txt "javascript:"; txt "vbscript:"; txt "onload"; txt "onerror" ].

(** A second pass of [sanitize_input] over [y] would find none of the words it
    deletes and no event-handler attribute. *)
Definition settled (y : text) : bool :=
  forallb (fun w => negb (contains w y)) dangerous_words
  && negb (re_search Validators.event_pattern y).

(** Characters of the classes of [email_pattern], and the newline [$] lets
    through. *)
Definition email_char (c : ascii) : bool :=
  Validators.email_local c || Validators.email_domain c
  || eqc "@" c || eqc "010" c.

End Props.

(** ** The rate limiter as the specification words it *)

Module Claimed.
Import Manager.

(** The pruning as worded: a recorded request goes when it is older than the
    window, so that one of exactly the window's age stays. *)
Definition recent_claimed (now window : Q) (reqs : list Q) : list Q :=
  List.filter (fun req_time => negb (Qltb window (now - req_time))) reqs.

Definition rate_limit_claimed (identity : string) (limit : Z) (window : Q)
    (now : Q) (sm : t) : bool * t :=
  let kept :=
    recent_claimed now window (default [] (rate_limit_data sm !! identity)) in
  if (limit <=? Z.of_nat (length kept))%Z
  then (false, set_rate_limit_data (insert identity kept) sm)
  else (true, set_rate_limit_data (insert identity (kept ++ [now])) sm).

(** One identity calling [rate_limit] at each of the given times, in turn. *)
Fixpoint requests (identity : string) (limit : Z) (window : Q)
    (times : list Q) (sm : t) : list bool * t :=
  match times with
  | [] => ([], sm)
  | now :: times' =>
      let '(admitted, sm1) := rate_limit identity limit window now sm in
      let '(rest, sm2) := requests identity limit window times' sm1 in
      (admitted :: rest, sm2)
  end.

(** Whether [validate_csrf_token] meets a record whose token is the presented
    one and whose age exceeds the hour. *)
Definition expired_match (session_id : string) (tok : option string) (now : Q)
    (sm : t) : bool :=
  match csrf_tokens sm !! session_id with
  | Some r => bool_decide (Some (token r) = tok) && Qltb 3600 (now - timestamp r)
  | None => false
  end.

End Claimed.

(** ** The URL checks of [SecurityManager]

    [validate_url], [is_private_ip] and [ip_in_range] lean on Python's
    library and on the resolver.  What they take from there comes as a
    record: each field is the library function, with [None] where the
    function raises. *)

Module Urls.
Import Text.

Record library : Type := Library {
  py_int : text -> option Z;            (* int(x) *)
  py_bin8 : Z -> text;                  (* f'{n:08b}' *)
  py_int2 : text -> option Z;           (* int(s, 2) *)
  gethostbyname : text -> option text;  (* socket.gethostbyname(hostname) *)
  urlparse : text -> option (text * option text)
                                        (* urlparse(url): scheme and hostname *)
}.

(** [s.split(sep)] for a separator of one character. *)
Fixpoint split_on (sep : ascii) (s : text) : list text :=
  match s with
  | [] => [[]]
  | x :: s' =>
      if eqc sep x then [] :: split_on sep s'
      else match split_on sep s' with
           | part :: parts => (x :: part) :: parts
           | [] => [[x]]
           end
  end.

Section WithLibrary.
Context (L : library).

(** [int(''.join([f'{int(x):08b}' for x in ip.split('.')]), 2)] *)
Definition ip_to_int (ip : text) : option Z :=
  parts ← mapM (py_int L) (split_on "." ip);
  py_int2 L (concat (map (py_bin8 L) parts)).

(** [ip_in_range]: the bare [except] turns every failure into [False]. *)
Definition ip_in_range (ip start end_ : text) : bool :=
  match ip_to_int ip, ip_to_int start, ip_to_int end_ with
  | Some ip_int, Some start_int, Some end_int =>
      (start_int <=? ip_int)%Z && (ip_int <=? end_int)%Z
  | _, _, _ => false
  end.

Definition private_ranges : list (string * string) :=
  [ ("10.0.0.0", "10.255.255.255");
    ("172.16.0.0", "172.31.255.255");
    ("192.168.0.0", "192.168.255.255") ].

Definition is_private_ip (hostname : text) : bool :=
  match gethostbyname L hostname with
  | None => false
  | Some ip =>
      existsb (fun r => ip_in_range ip (txt r.1) (txt r.2)) private_ranges
  end.

Definition validate_url (url : text) : bool :=
  match url with
  | [] => false
  | _ =>
      match urlparse L url with
      | None => false
      | Some (scheme, hostname) =>
          if negb (bool_decide (scheme ∈ [txt "http"; txt "https"])) then false
          else if bool_decide
                    (hostname ∈ [Some (txt "localhost"); Some (txt "127.0.0.1");
                                 Some (txt "0.0.0.0")])
          then false
          else
            match hostname with
            | Some (c :: h) => if is_private_ip (c :: h) then false else true
            | _ => true
            end
      end
  end.

End WithLibrary.

(** *** What is assumed of the library *)

(** The decimal numeral of a natural number. *)
Definition decimal (n : N) : text :=
  String.list_ascii_of_string (NilZero.string_of_uint (N.to_uint n)).

(** An IPv4 address in dotted decimal, as the resolver writes it. *)
Definition dotted (a b c d : N) : text :=
  decimal a ++ "."%char :: decimal b ++ "."%char :: decimal c
    ++ "."%char :: decimal d.

(** The binary numeral of [n] on eight digits. *)
Definition bits8 (n : Z) : text :=
  map (fun i => if Z.testbit n i then "1"%char else "0"%char)
    [7; 6; 5; 4; 3; 2; 1; 0]%Z.

Definition is_bit (c : ascii) : bool := eqc "0" c || eqc "1" c.

(** The number a binary numeral stands for. *)
Definition binary_value (s : text) : Z :=
  foldl (fun acc c => 2 * acc + (if eqc "1" c then 1 else 0))%Z 0%Z s.

(** Python's [int] reads the decimal numeral of a number below 256 as that
    number; [format] with [08b] writes such a number on eight binary digits;
    [int] with base 2 reads a non-empty text of binary digits as the number
    it stands for. *)
Definition conforms (L : library) : Prop :=
  (forall n, (n < 256)%N -> py_int L (decimal n) = Some (Z.of_N n))
  /\ (forall n, (n < 256)%N -> py_bin8 L (Z.of_N n) = bits8 (Z.of_N n))
  /\ (forall s, s <> [] -> forallb is_bit s = true ->
        py_int2 L s = Some (binary_value s)).

(** The number of an address. *)
Definition address (a b c d : N) : Z :=
  (Z.of_N a * 2 ^ 24 + Z.of_N b * 2 ^ 16 + Z.of_N c * 2 ^ 8 + Z.of_N d)%Z.

(** The three private ranges, by the two leading numbers. *)
Definition rfc1918 (a b : N) : bool :=
  ((a =? 10) || ((a =? 172) && (16 <=? b) && (b <=? 31))
   || ((a =? 192) && (b =? 168)))%N.

(** *** A small library to try the properties on *)

Fixpoint digits_value (acc : Z) (s : text) : option Z :=
  match s with
  | [] => Some acc
  | c :: s' =>
      if is_digit c
      then digits_value (10 * acc + Z.of_N (code c) - 48)%Z s'
      else None
  end.

Definition sample_library : library :=
  Library
    (fun s => match s with [] => None | _ => digits_value 0 s end)
    bits8
    (fun s => match s with
              | [] => None
              | _ => if forallb is_bit s then Some (binary_value s) else None
              end)
    (fun h =>
       if bool_decide (h = txt "intranet.example") then Some (dotted 172 20 1 9)
       else if bool_decide (h = txt "www.example.org") then Some (dotted 93 184 216 34)
       else None)
    (fun u =>
       if bool_decide (u = txt "https://www.example.org/join")
       then Some (txt "https", Some (txt "www.example.org"))
       else if bool_decide (u = txt "http://intranet.example/admin")
       then Some (txt "http", Some (txt "intranet.example"))
       else None).

End Urls.

(** ** Notions used by the further properties *)

Module Further.
Import Text Re Manager Server.

(** The texts a pattern matches at their start, told by their shape: the
    text splits into one run of characters per item, of the item's class and
    of a length its quantifier allows. *)
Fixpoint accepts (p : pattern) (s : text) : Prop :=
  match p with
  | [] => True
  | Cls c (Exactly n) :: p' =>
      exists u s', s = u ++ s' /\ length u = n
        /\ Forall (fun x => c x = true) u /\ accepts p' s'
  | Cls c (Greedy n) :: p' | Cls c (Lazy n) :: p' =>
      exists u s', s = u ++ s' /\ (n <= length u)%nat
        /\ Forall (fun x => c x = true) u /\ accepts p' s'
  | Eos :: p' => at_eos s = true /\ accepts p' s
  end.

(** The recorded requests of an identity. *)
Definition history (ip : string) (sm : t) : list Q :=
  default [] (rate_limit_data sm !! ip).

(** Of the requests made at [times], those the limiter answered true. *)
Fixpoint admitted (times : list Q) (answers : list bool) : list Q :=
  match times, answers with
  | t0 :: times', true :: answers' => t0 :: admitted times' answers'
  | _ :: times', false :: answers' => admitted times' answers'
  | _, _ => []
  end.

(** A computation keeps a relation between the world it starts in and the
    world it leaves, whatever it returns or raises. *)
Definition keeps {A : Type} (R : world -> world -> Prop) (m : M A) : Prop :=
  forall w, R w (m w).2.

(** The block list only grows. *)
Definition blocklist_grows (w w' : world) : Prop :=
  blocked_ips (sm w) ⊆ blocked_ips (sm w').

(** A session identifier, once there, stays what it is. *)
Definition session_id_stays (w w' : world) : Prop :=
  forall v, session w !! "session_id" = Some v ->
            session w' !! "session_id" = Some v.

(** What a computation can come to: each value it returns satisfies [P],
    each exception it raises satisfies [E]. *)
Definition comes_to {A : Type} (E : exn -> Prop) (P : A -> Prop) (m : M A) : Prop :=
  forall w, match (m w).1 with Ok a => P a | Raise ex => E ex end.

(** An [abort] with one of the given codes. *)
Definition aborts_with (codes : list Z) (ex : exn) : Prop :=
  exists code, ex = HTTPException code /\ code ∈ codes.

End Further.

Import Text Re Validators Manager Server Props Claimed.
Import Further Urls.

(** ** Facts on strings *)

Lemma eqc_eq (a b : ascii) : eqc a b = true <-> a = b.
Proof. apply Ascii.eqb_eq. Qed.

Lemma eqc_refl (a : ascii) : eqc a a = true.
Proof. by apply eqc_eq. Qed.

Lemma eqc_ne (a b : ascii) : a <> b -> eqc a b = false.
Proof. intros H. destruct (eqc a b) eqn:E; [|done]. by apply eqc_eq in E. Qed.

Section Scan.
Context (m : text -> option nat) (rep : text).

Lemma subst_matches_Forall (P : ascii -> Prop) (s : text) (skip : nat) :
  Forall P rep -> Forall P s -> Forall P (subst_matches m rep skip s).
Proof.
  intros Hrep Hs. revert skip.
  induction Hs as [|x s Hx Hs IH]; intros skip; simpl; [constructor|].
  destruct skip; [|apply IH].
  destruct (m (x :: s)) as [[|n]|].
  - constructor; auto.
  - apply Forall_app; auto.
  - constructor; auto.
Qed.

Lemma occurs_cons_false (x : ascii) (s : text) :
  occurs m (x :: s) = false -> m (x :: s) = None /\ occurs m s = false.
Proof. simpl. destruct (m (x :: s)); [done|auto]. Qed.

Lemma subst_matches_id (s : text) :
  occurs m s = false -> subst_matches m rep 0 s = s.
Proof.
  induction s as [|x s IH]; [done|].
  intros [Hm Ho]%occurs_cons_false. simpl. rewrite Hm. f_equal. auto.
Qed.

Lemma occurs_true (s : text) :
  occurs m s = true -> exists t n, t `suffix_of` s /\ m t = Some n.
Proof.
  induction s as [|x s IH]; simpl.
  - destruct (m []) as [n|] eqn:E; [|done]. intros _. by exists [], n.
  - destruct (m (x :: s)) as [n|] eqn:E.
    + intros _. by exists (x :: s), n.
    + intros (t & n & Ht & Hn)%IH. exists t, n. split; [|done].
      by apply suffix_cons_r.
Qed.
End Scan.

Lemma prefix_len_single (c x : ascii) (s : text) :
  prefix_len [c] (x :: s) = if eqc c x then Some 1%nat else None.
Proof. unfold prefix_len. simpl. by destruct (eqc c x). Qed.

(** Deleting a character leaves no occurrence of it. *)
Lemma str_replace_single_gone (c : ascii) (s : text) :
  Forall (fun x => x <> c) (str_replace [c] [] s).
Proof.
  unfold str_replace. induction s as [|x s IH]; simpl; [constructor|].
  fold (prefix_len [c] (x :: s)). rewrite prefix_len_single.
  destruct (eqc c x) eqn:E; simpl; [done|].
  constructor; [|done]. intros ->. by rewrite eqc_refl in E.
Qed.

Lemma starts_with_head (old : text) (c x : ascii) (s : text) :
  starts_with (c :: old) (x :: s) = true -> x = c.
Proof. simpl. intros [H _]%andb_true_iff. symmetry. by apply eqc_eq. Qed.

(** A word whose first character does not occur in [s] does not occur in
    [s]. *)
Lemma contains_absent (c : ascii) (old s : text) :
  Forall (fun x => x <> c) s -> contains (c :: old) s = false.
Proof.
  unfold contains. induction 1 as [|x s Hx Hs IH]; [done|].
  simpl. unfold prefix_len at 1.
  destruct (starts_with (c :: old) (x :: s)) eqn:E; [|done].
  by apply starts_with_head in E.
Qed.

Lemma str_replace_absent (c : ascii) (old new s : text) :
  Forall (fun x => x <> c) s -> str_replace (c :: old) new s = s.
Proof. intros H. apply subst_matches_id. by apply contains_absent. Qed.

Lemma str_replace_Forall (P : ascii -> Prop) (old s : text) :
  Forall P s -> Forall P (str_replace old [] s).
Proof. apply subst_matches_Forall. constructor. Qed.

Lemma lstrip_suffix (s : text) : lstrip s `suffix_of` s.
Proof.
  induction s as [|x s IH]; simpl; [done|].
  destruct (is_space x); [by apply suffix_cons_r|done].
Qed.

Lemma lstrip_Forall (P : ascii -> Prop) (s : text) :
  Forall P s -> Forall P (lstrip s).
Proof.
  intros H. destruct (lstrip_suffix s) as [k Hk].
  rewrite Hk in H. by apply Forall_app in H as [_ H].
Qed.

Lemma rstrip_Forall (P : ascii -> Prop) (s : text) :
  Forall P s -> Forall P (rstrip s).
Proof.
  intros H. unfold rstrip. apply Forall_rev, lstrip_Forall, Forall_rev. done.
Qed.

Lemma strip_Forall (P : ascii -> Prop) (s : text) :
  Forall P s -> Forall P (strip s).
Proof. intros H. by apply rstrip_Forall, lstrip_Forall. Qed.

Lemma lstrip_idem (s : text) : lstrip (lstrip s) = lstrip s.
Proof.
  induction s as [|x s IH]; simpl; [done|].
  destruct (is_space x) eqn:E; [done|]. simpl. by rewrite E.
Qed.

Lemma rstrip_prefix (s : text) : rstrip s `prefix_of` s.
Proof.
  unfold rstrip. destruct (lstrip_suffix (rev s)) as [k Hk].
  exists (rev k). rewrite <- rev_app_distr, <- Hk. by rewrite rev_involutive.
Qed.

Lemma rstrip_idem (s : text) : rstrip (rstrip s) = rstrip s.
Proof. unfold rstrip. by rewrite rev_involutive, lstrip_idem. Qed.

(** A text without a leading blank keeps that property when blanks are
    taken off its end. *)
Lemma lstrip_rstrip (s : text) : lstrip s = s -> lstrip (rstrip s) = rstrip s.
Proof.
  intros Hs. destruct (rstrip_prefix s) as [k Hk].
  destruct (rstrip s) as [|x r]; [done|].
  rewrite Hk in Hs. simpl in *.
  destruct (is_space x); [|done].
  pose proof (lstrip_suffix (r ++ k)) as Hsuf. rewrite Hs in Hsuf.
  apply suffix_length in Hsuf. simpl in Hsuf. lia.
Qed.

Lemma strip_idem (s : text) : strip (strip s) = strip s.
Proof.
  unfold strip. rewrite lstrip_rstrip by apply lstrip_idem. apply rstrip_idem.
Qed.

(** ** Facts on the matcher *)

Section MatchInvariant.
Context (I : text -> nat -> Prop).

Lemma exactly_sound (m : nat) (c : ascii -> bool) (k : text -> option nat) :
  preserves I c -> sound_k I k -> sound_k I (exactly m c k).
Proof.
  intros Hc Hk. induction m as [|m IH]; intros s n; simpl; [apply Hk|].
  destruct s as [|x s]; [done|]. destruct (c x) eqn:E; [|done].
  destruct (exactly m c k s) as [n'|] eqn:Em; [|done].
  intros [= <-]. apply Hc; auto.
Qed.

Lemma greedy_sound (c : ascii -> bool) (k : text -> option nat) :
  preserves I c -> sound_k I k -> sound_k I (greedy c k).
Proof.
  intros Hc Hk s. induction s as [|x s IH]; intros n; simpl; [apply Hk|].
  destruct (c x) eqn:E; [|apply Hk].
  destruct (greedy c k s) as [n'|] eqn:Eg; [|apply Hk].
  intros [= <-]. apply Hc; auto.
Qed.

Lemma lazy_sound (c : ascii -> bool) (k : text -> option nat) :
  preserves I c -> sound_k I k -> sound_k I (lazy c k).
Proof.
  intros Hc Hk s. induction s as [|x s IH]; intros n; simpl.
  - destruct (k []) eqn:E; [|done]. intros [= <-]. by apply Hk.
  - destruct (k (x :: s)) eqn:E; [intros [= <-]; by apply Hk|].
    destruct (c x) eqn:Ec; [|done].
    destruct (lazy c k s) as [n'|] eqn:El; [|done].
    intros [= <-]. apply Hc; auto.
Qed.

(** Items that keep the invariant can be put in front of a pattern that
    establishes it. *)
Lemma match_here_sound (pre p0 : pattern) :
  preserves_all I pre -> sound_k I (match_here p0) ->
  sound_k I (match_here (pre ++ p0)).
Proof.
  intros Hpre H0. induction Hpre as [|it pre Hit Hpre IH]; [done|].
  destruct it as [c [m|m|m]|]; simpl.
  - by apply exactly_sound.
  - by apply exactly_sound, greedy_sound.
  - by apply exactly_sound, lazy_sound.
  - intros s n. destruct (at_eos s); [apply IH|done].
Qed.
End MatchInvariant.

(** The characters a match consumed belong to the classes of the pattern. *)
Lemma match_here_consumed (P : ascii -> Prop) (p : pattern) (s : text) (n : nat) :
  Forall (fun it => match it with
                    | Cls c _ => forall x, c x = true -> P x
                    | Eos => True
                    end) p ->
  match_here p s = Some n -> Forall P (take n s).
Proof.
  intros Hp. revert s n.
  change (sound_k (fun s n => Forall P (take n s)) (match_here p)).
  rewrite <- (app_nil_r p). apply match_here_sound.
  - eapply Forall_impl; [exact Hp|]. intros [c q|]; [|done].
    intros Hc x s n Hx Hs. simpl. constructor; auto.
  - intros s n [= <-]. constructor.
Qed.

(** After a match of a pattern with a [$] in it, what is left of the text is
    empty or a single newline. *)
Lemma match_here_eos (pre post : pattern) (s : text) (n : nat) :
  match_here (pre ++ Eos :: post) s = Some n -> at_eos (drop n s) = true.
Proof.
  revert s n.
  change (sound_k (fun s n => at_eos (drop n s) = true)
            (match_here (pre ++ Eos :: post))).
  apply match_here_sound.
  - apply Forall_forall. intros [c q|] _; [|done]. by intros x s n _ H.
  - intros s n. simpl. destruct (at_eos s) eqn:E; [|done]. intros _.
    destruct s as [|a [|b s]]; [by destruct n|by destruct n as [|[|n]]|done].
Qed.

(** A match of a pattern with a mandatory item consumed a character of that
    item's class. *)
Lemma match_here_mandatory (c : ascii -> bool) (pre post : pattern)
    (s : text) (n : nat) :
  match_here (pre ++ Cls c (Exactly 1) :: post) s = Some n ->
  exists x, x ∈ s /\ c x = true.
Proof.
  revert s n.
  change (sound_k (fun s _ => exists x, x ∈ s /\ c x = true)
            (match_here (pre ++ Cls c (Exactly 1) :: post))).
  apply match_here_sound.
  - apply Forall_forall. intros [c' q|] _; [|done].
    intros x s n _ (y & Hy & Hc). exists y. split; [by constructor|done].
  - intros s n. simpl. destruct s as [|x s]; [done|].
    destruct (c x) eqn:E; [|done]. intros _. exists x. split; [constructor|done].
Qed.

Lemma re_search_mandatory (c : ascii -> bool) (pre post : pattern) (s : text) :
  re_search (pre ++ Cls c (Exactly 1) :: post) s = true ->
  exists x, x ∈ s /\ c x = true.
Proof.
  intros (t & n & [k ->] & Hm)%occurs_true.
  apply match_here_mandatory in Hm as (x & Hx & Hc).
  exists x. split; [|done]. apply elem_of_app. by right.
Qed.

(** A greedy repetition over a text made of its class only runs to the end. *)
Lemma greedy_all (c : ascii -> bool) (k : text -> option nat) (s : text) :
  Forall (fun x => c x = true) s -> k [] = Some 0%nat ->
  greedy c k s = Some (length s).
Proof.
  intros Hs Hk. induction Hs as [|x s Hx Hs IH]; simpl; [done|].
  by rewrite Hx, IH.
Qed.

(** ** The sanitizer *)

Ltac ascii_cases x :=
  destruct x as [[] [] [] [] [] [] [] []]; vm_compute; try done; auto.

Lemma eqc_i_lt (x : ascii) : eqc_i "<" x = true -> x = "<"%char.
Proof. ascii_cases x. Qed.

Lemma eqc_i_colon (x : ascii) : eqc_i ":" x = true -> x = ":"%char.
Proof. ascii_cases x. Qed.

Lemma eqc_i_paren (x : ascii) : eqc_i "(" x = true -> x = "("%char.
Proof. ascii_cases x. Qed.

Lemma remove_dangerous_gone (x : text) (c : ascii) :
  special c -> Forall (fun a => a <> c) (remove_dangerous x).
Proof.
  unfold remove_dangerous.
  intros [->|[->|[->|[->| ->]]]]; simpl;
    repeat first [ apply str_replace_single_gone | apply str_replace_Forall ].
Qed.

Lemma not_special_Forall (s : text) :
  (forall c, special c -> Forall (fun a => a <> c) s) ->
  Forall (fun a => ~ special a) s.
Proof.
  intros H. apply Forall_forall. intros a Ha Hsp.
  specialize (H a Hsp). rewrite Forall_forall in H. by apply (H a).
Qed.

Lemma special_absent (s : text) (c : ascii) :
  special c -> Forall (fun a => ~ special a) s -> Forall (fun a => a <> c) s.
Proof.
  intros Hc H. eapply Forall_impl; [exact H|].
  intros a Ha ->. by apply Ha.
Qed.

(** [html.escape] changes a text only at the five special characters. *)
Lemma html_escape_clean (s : text) :
  Forall (fun a => ~ special a) s -> html_escape s = s.
Proof.
  intros H. unfold html_escape, txt. simpl.
  by rewrite !(str_replace_absent _ _ _ s)
    by (apply special_absent; [unfold special; auto 6|done]).
Qed.

Lemma re_search_script_clean (s : text) :
  Forall (fun a => ~ special a) s -> re_search script_pattern s = false.
Proof.
  intros H. destruct (re_search script_pattern s) eqn:E; [|done].
  destruct (re_search_mandatory (eqc_i "<") [] (tail script_pattern) s E)
    as (x & Hx & ->%eqc_i_lt).
  rewrite Forall_forall in H. destruct (H _ Hx). by left.
Qed.

Lemma sanitize_input_unfold (x : text) :
  x <> [] ->
  sanitize_input x =
    strip (re_sub event_pattern (re_sub script_pattern
      (html_escape (remove_dangerous x)))).
Proof. by destruct x. Qed.

Lemma sanitize_input_clean (x : text) :
  Forall (fun a => ~ special a) (sanitize_input x).
Proof.
  destruct (decide (x = [])) as [->|Hx]; [constructor|].
  rewrite sanitize_input_unfold by done.
  pose proof (not_special_Forall _ (remove_dangerous_gone x)) as H.
  rewrite html_escape_clean by done.
  apply strip_Forall. unfold re_sub.
  apply subst_matches_Forall; [constructor|].
  by apply subst_matches_Forall; [constructor|].
Qed.

Lemma sanitize_input_stripped (x : text) :
  strip (sanitize_input x) = sanitize_input x.
Proof.
  destruct (decide (x = [])) as [->|Hx]; [done|].
  rewrite sanitize_input_unfold by done. apply strip_idem.
Qed.

Lemma settled_words (y : text) (w : text) :
  settled y = true -> w ∈ dangerous_words -> str_replace w [] y = y.
Proof.
  intros [Hw _]%andb_true_iff Hin. apply subst_matches_id.
  rewrite forallb_forall in Hw. apply negb_true_iff, Hw.
  by apply list_elem_of_In.
Qed.

Lemma remove_dangerous_settled (y : text) :
  Forall (fun a => ~ special a) y -> settled y = true -> remove_dangerous y = y.
Proof.
  intros Hy Hs. unfold remove_dangerous, dangerous_chars. cbn [foldl].
  unfold txt. simpl String.list_ascii_of_string.
  rewrite !(str_replace_absent _ _ _ y)
    by (apply special_absent; [unfold special; auto 6|done]).
  by rewrite !(settled_words y)
    by (done || (unfold dangerous_words, txt; simpl; set_solver)).
Qed.

(** C10. Whatever the input, [sanitize_input] returns a text without any of
    the five characters less-than, greater-than, double quote, apostrophe and
    ampersand; the text [html.escape] receives has none of them either, so
    that step changes nothing; and the result holds no script-tag block (nor
    any tag in angle brackets, for want of brackets). *)
Theorem sanitize_input_output_clean (x : text) :
  Forall (fun a => a ∉ ["<"; ">"; "034"; "'"; "&"]%char) (sanitize_input x)
  /\ html_escape (remove_dangerous x) = remove_dangerous x
  /\ re_search script_pattern (sanitize_input x) = false.
Proof.
  split; [|split].
  - eapply Forall_impl; [apply sanitize_input_clean|].
    intros a Ha Hin. apply Ha. unfold special.
    repeat (apply elem_of_cons in Hin as [->|Hin]; [auto 6|]).
    by apply elem_of_nil in Hin.
  - apply html_escape_clean, not_special_Forall, remove_dangerous_gone.
  - apply re_search_script_clean, sanitize_input_clean.
Qed.

(** C2, as stated, fails: one pass over ["javajavascript:script:"] deletes the
    inner word and leaves ["javascript:"], which a second pass deletes. *)
Lemma sanitize_input_not_idempotent :
  sanitize_input (txt "javajavascript:script:") = txt "javascript:"
  /\ sanitize_input (sanitize_input (txt "javajavascript:script:")) = [].
Proof. split; vm_compute; reflexivity. Qed.

(** C2, amended. A second pass changes nothing when the first pass left none
    of the words [javascript:], [vbscript:], [onload], [onerror] and no
    event-handler attribute in its result. *)
Theorem sanitize_input_idempotent_when_settled (x : text) :
  settled (sanitize_input x) = true ->
  sanitize_input (sanitize_input x) = sanitize_input x.
Proof.
  intros Hs.
  pose proof (sanitize_input_clean x) as Hc.
  pose proof (sanitize_input_stripped x) as Hst.
  destruct (decide (sanitize_input x = [])) as [->|Hne]; [done|].
  rewrite (sanitize_input_unfold (sanitize_input x)) by done.
  rewrite remove_dangerous_settled, html_escape_clean by done.
  unfold re_sub.
  rewrite (subst_matches_id (match_here script_pattern))
    by by apply re_search_script_clean.
  rewrite subst_matches_id; [done|].
  apply andb_true_iff in Hs as [_ Hs]. by apply negb_true_iff in Hs.
Qed.

Lemma sanitize_input_idempotent_when_settled_witness :
  settled (sanitize_input (txt " <b>Bob & 'Al'</b> ")) = true
  /\ sanitize_input (sanitize_input (txt " <b>Bob & 'Al'</b> "))
     = sanitize_input (txt " <b>Bob & 'Al'</b> ").
Proof.
  split; [vm_compute; reflexivity|].
  apply (sanitize_input_idempotent_when_settled (txt " <b>Bob & 'Al'</b> ")).
  vm_compute; reflexivity.
Defined.

(** ** The validators *)

Lemma re_match_Some (p : pattern) (s : text) :
  re_match p s = true <-> exists n, match_here p s = Some n.
Proof. unfold re_match. rewrite bool_decide_eq_true. done. Qed.

Lemma at_eos_inv (s : text) : at_eos s = true -> s = [] \/ s = ["010"%char].
Proof.
  destruct s as [|a [|b s]]; simpl; [auto| |done].
  intros ->%eqc_eq. auto.
Qed.

(** The text a pattern closed by [$] accepts is made of characters of its
    classes, but for a newline at its very end. *)
Lemma re_match_chars (P : ascii -> Prop) (pre : pattern) (s : text) :
  Forall (fun it => match it with
                    | Cls c _ => forall x, c x = true -> P x
                    | Eos => True
                    end) pre ->
  P "010"%char ->
  re_match (pre ++ [Eos]) s = true -> Forall P s.
Proof.
  intros Hpre Hnl [n Hn]%re_match_Some.
  rewrite <- (take_drop n s). apply Forall_app. split.
  - eapply match_here_consumed; [|exact Hn].
    apply Forall_app. split; [done|]. by repeat constructor.
  - apply match_here_eos, at_eos_inv in Hn as [-> | ->]; by repeat constructor.
Qed.

Lemma email_local_char (x : ascii) : email_local x = true -> email_char x = true.
Proof. unfold email_char. by intros ->. Qed.

Lemma email_domain_char (x : ascii) : email_domain x = true -> email_char x = true.
Proof. unfold email_char. intros ->. by rewrite orb_true_r. Qed.

Lemma email_at_char (x : ascii) : eqc "@" x = true -> email_char x = true.
Proof. unfold email_char. intros ->. by rewrite !orb_true_r. Qed.

Lemma email_dot_char (x : ascii) : eqc "." x = true -> email_char x = true.
Proof. intros H. apply email_domain_char. unfold email_domain. by rewrite H, !orb_true_r. Qed.

Lemma email_letter_char (x : ascii) : is_letter x = true -> email_char x = true.
Proof. intros H. apply email_local_char. unfold email_local. by rewrite H. Qed.

Lemma email_char_plain (x : ascii) :
  email_char x = true ->
  eqc_i ":" x = false /\ eqc_i "<" x = false /\ eqc_i "(" x = false.
Proof. ascii_cases x. Qed.

Lemma re_match_email_chars (e : text) :
  re_match email_pattern e = true -> Forall (fun x => email_char x = true) e.
Proof.
  apply (re_match_chars _
    [ Cls email_local (Greedy 1); Cls (eqc "@") (Exactly 1);
      Cls email_domain (Greedy 1); Cls (eqc ".") (Exactly 1);
      Cls is_letter (Greedy 2) ]); [|done].
  repeat constructor; simpl;
    auto using email_local_char, email_domain_char, email_at_char,
      email_dot_char, email_letter_char.
Qed.

Lemma email_chars_absent (e : text) (c : ascii) :
  Forall (fun x => email_char x = true) e ->
  (forall x, eqc_i c x = true -> email_char x = false) ->
  forall pre post, re_search (pre ++ Cls (eqc_i c) (Exactly 1) :: post) e = false.
Proof.
  intros He Hc pre post. apply not_true_is_false.
  intros (x & Hx & Hcx)%re_search_mandatory.
  rewrite Forall_forall in He. specialize (He x Hx). rewrite (Hc x Hcx) in He. done.
Qed.

Lemma eqc_i_not_email (c x : ascii) :
  c ∈ [":"; "<"; "("]%char -> eqc_i c x = true -> email_char x = false.
Proof.
  intros Hc Hx. destruct (email_char x) eqn:E; [|done].
  apply email_char_plain in E as (H1 & H2 & H3).
  repeat (apply elem_of_cons in Hc as [->|Hc]; [congruence|]).
  by apply elem_of_nil in Hc.
Qed.

Lemma email_chars_not_suspicious (e : text) :
  Forall (fun x => email_char x = true) e ->
  existsb (fun p => re_search p e) email_suspicious_patterns = false.
Proof.
  intros He. unfold email_suspicious_patterns. cbn [existsb].
  assert (forall p c pre post,
    p = pre ++ Cls (eqc_i c) (Exactly 1) :: post -> c ∈ [":"; "<"; "("]%char ->
    re_search p e = false) as H.
  { intros p c pre post -> Hc. apply email_chars_absent; [done|].
    intros x. by apply eqc_i_not_email. }
  rewrite (H (lit_i (txt "javascript:")) ":"%char (lit_i (txt "javascript")) []
             eq_refl) by set_solver.
  rewrite (H (lit_i (txt "vbscript:")) ":"%char (lit_i (txt "vbscript")) []
             eq_refl) by set_solver.
  rewrite (H (lit_i (txt "data:")) ":"%char (lit_i (txt "data")) [] eq_refl)
    by set_solver.
  rewrite (H (lit_i (txt "<script")) "<"%char [] (lit_i (txt "script")) eq_refl)
    by set_solver.
  rewrite (H (lit_i (txt "javascript(")) "("%char (lit_i (txt "javascript")) []
             eq_refl) by set_solver.
  by rewrite (H (lit_i (txt "vbscript(")) "("%char (lit_i (txt "vbscript")) []
                eq_refl) by set_solver.
Qed.

Lemma email_chars_no_marker (e : text) :
  Forall (fun x => email_char x = true) e ->
  existsb (fun c => bool_decide (c ∈ e)) [":"; "<"; "("]%char = false.
Proof.
  intros He. apply not_true_is_false. intros (c & Hc & Hin)%existsb_exists.
  apply bool_decide_eq_true in Hin. apply list_elem_of_In in Hc.
  rewrite Forall_forall in He. specialize (He c Hin).
  assert (eqc_i c c = true) as Hcc by apply Ascii.eqb_refl.
  by rewrite (eqc_i_not_email c c Hc Hcc) in He.
Qed.

(** C9. [validate_email] answers as the shape test alone: a text the shape
    accepts has no colon, no less-than sign and no opening parenthesis, so
    none of the six suspicious patterns is found in it. *)
Theorem validate_email_is_shape_test (e : text) :
  validate_email e = re_match email_pattern e
  /\ re_match email_pattern e
     && (existsb (fun c => bool_decide (c ∈ e)) [":"; "<"; "("]%char
         || existsb (fun p => re_search p e) email_suspicious_patterns) = false.
Proof.
  destruct (re_match email_pattern e) eqn:E.
  - pose proof (re_match_email_chars e E) as He.
    rewrite email_chars_not_suspicious, email_chars_no_marker by done.
    split; [|done]. destruct e as [|a e]; [done|].
    unfold validate_email. by rewrite E, email_chars_not_suspicious.
  - split; [|done]. destruct e as [|a e]; [done|].
    unfold validate_email. by rewrite E.
Qed.

Lemma name_char_newline : name_char "010" = true.
Proof. reflexivity. Qed.

Lemma re_match_name_iff (s : text) :
  re_match name_pattern s = true <->
  s <> [] /\ Forall (fun c => name_char c = true) s.
Proof.
  split.
  - intros H. split; [by intros ->|].
    by apply (re_match_chars _ [Cls name_char (Greedy 1)]);
      [repeat constructor|apply name_char_newline|].
  - intros [Hne Hs]. apply re_match_Some. exists (length s).
    destruct Hs as [|x s Hx Hs]; [done|]. simpl. rewrite Hx. simpl.
    by rewrite greedy_all.
Qed.

(** What [validate_name] accepts, exactly: texts of 2 to 50 characters of
    the class [[a-zA-Z\s'-]]. *)
Lemma validate_name_iff (name : text) :
  validate_name name = true <->
  Forall (fun c => name_char c = true) name /\ (2 <= length name <= 50)%nat.
Proof.
  destruct name as [|a name]; [simpl; split; [done|lia]|].
  unfold validate_name.
  destruct (re_match name_pattern (a :: name)) eqn:E; simpl negb; cbv iota.
  - apply re_match_name_iff in E as [_ E].
    destruct (Nat.ltb_spec (length (a :: name)) 2) as [H1|H1];
      destruct (Nat.ltb_spec 50 (length (a :: name))) as [H2|H2];
      simpl orb; cbv iota;
      split; first [done | intros [_ ?]; lia | intros _; split; [done|lia]].
  - split; [done|]. intros [H _].
    assert (re_match name_pattern (a :: name) = true) by by apply re_match_name_iff.
    congruence.
Qed.

Lemma name_char_iff (c : ascii) :
  name_char c = true <->
  is_letter c = true \/ is_space c = true \/ c = "'"%char \/ c = "-"%char.
Proof.
  unfold name_char. rewrite !orb_true_iff, !eqc_eq. intuition congruence.
Qed.

(** C8. [validate_name] accepts a name with a tabulation in it, and a
    tabulation is neither a letter, nor the space, nor a hyphen, nor an
    apostrophe, the four kinds that the comment above [name_pattern] allows:
    the class of the pattern has [\s] where the comment has spaces.  The
    characters the pattern lets in beyond the four kinds are the tabulation,
    the newline and the three other controls up to the carriage return
    (codes 9 to 13), the four separators (28 to 31), the next-line control
    (133) and the no-break space (160), and a name of letters around any of
    them is accepted. *)
Theorem validate_name_accepts_tab :
  validate_name ["a"; "009"; "b"]%char = true
  /\ is_letter "009" = false
  /\ eqc " " "009" = false /\ eqc "-" "009" = false /\ eqc "'" "009" = false
  /\ filter (fun n => let c := ascii_of_N n in
                      name_char c
                      && negb (is_letter c || eqc " " c || eqc "-" c || eqc "'" c))
        (map N.of_nat (seq 0 256))
      = [9; 10; 11; 12; 13; 28; 29; 30; 31; 133; 160]%N
  /\ forallb (fun n => validate_name ["a"%char; ascii_of_N n; "b"%char])
        [9; 10; 11; 12; 13; 28; 29; 30; 31; 133; 160]%N = true.
Proof. repeat split; vm_compute; reflexivity. Qed.

(** What [validate_name] accepts, by kinds of characters: the texts of 2 to
    50 characters each of which is a letter of [a-zA-Z], a blank character
    of the class [\s] (the space, and also the tabulation, the newline and
    the other blanks), an apostrophe or a hyphen; so it accepts
    [O'Brien-Smith] and refuses [a1]. *)
Lemma validate_name_accepts (name : text) :
  (validate_name name = true <->
     Forall (fun c => is_letter c = true \/ is_space c = true
                      \/ c = "'"%char \/ c = "-"%char) name
     /\ (2 <= length name <= 50)%nat)
  /\ validate_name (txt "O'Brien-Smith") = true
  /\ validate_name (txt "a1") = false.
Proof.
  split; [|split; vm_compute; reflexivity].
  rewrite validate_name_iff. split; intros [H ?]; (split; [|done]);
    (eapply Forall_impl; [exact H|]); intros c; by rewrite name_char_iff.
Qed.

(** ** The CSRF token store *)

Lemma Qltb_lt (a b : Q) : Qltb a b = true <-> (a < b)%Q.
Proof. unfold Qltb, Qlt. apply Z.ltb_lt. Qed.

Lemma Qltb_ge (a b : Q) : Qltb a b = false <-> (b <= a)%Q.
Proof. unfold Qltb, Qle. apply Z.ltb_ge. Qed.

(** C3, as stated, fails: a presented token that differs from the stored one
    is refused and the record stays in the store. *)
Lemma validate_csrf_token_mismatch_keeps_record :
  let sm := snd (generate_csrf_token "s1" "good" 0 init) in
  fst (validate_csrf_token "s1" (Some "evil") 10 sm) = false
  /\ csrf_tokens (snd (validate_csrf_token "s1" (Some "evil") 10 sm)) !! "s1"
     = Some (CsrfRecord "good" 0).
Proof. split; vm_compute; reflexivity. Qed.

(** C3, amended. [validate_csrf_token] answers false exactly when there is no
    record for the session, or the stored token differs from the presented
    one, or more than 3600 seconds have passed since the issue; the record is
    deleted exactly when the token is the stored one and the record is
    expired, and in every other case the store is left as it was. *)
Theorem validate_csrf_token_rejects (session_id : string) (tok : option string)
    (now : Q) (sm : t) :
  (fst (validate_csrf_token session_id tok now sm) = false <->
     csrf_tokens sm !! session_id = None
     \/ exists r, csrf_tokens sm !! session_id = Some r
          /\ (Some (token r) <> tok \/ (3600 < now - timestamp r)%Q))
  /\ snd (validate_csrf_token session_id tok now sm) =
       (if expired_match session_id tok now sm
        then set_csrf_tokens (delete session_id) sm
        else sm).
Proof.
  unfold validate_csrf_token, expired_match.
  destruct (csrf_tokens sm !! session_id) as [r|] eqn:E; [|split; [tauto|done]].
  destruct (decide (Some (token r) = tok)) as [Ht|Ht].
  - rewrite (bool_decide_eq_false_2 (Some (token r) <> tok)) by tauto.
    rewrite (bool_decide_eq_true_2 _ Ht). simpl andb.
    destruct (Qltb 3600 (now - timestamp r)) eqn:Eq; simpl; (split; [|done]).
    + apply Qltb_lt in Eq. split; [|done]. intros _. right. exists r. auto.
    + apply Qltb_ge in Eq. split; [done|].
      intros [|(r' & [= <-] & [|Hlt])]; [done..|lra].
  - rewrite (bool_decide_eq_true_2 _ Ht), (bool_decide_eq_false_2 _ Ht).
    simpl. split; [|done]. split; [|done]. intros _. right. exists r. auto.
Qed.

(** C5. After [generate_csrf_token] the store holds the fresh token with the
    time of issue in place of whatever it held for the session; from then on
    a presented token validates exactly when it is the fresh one and at most
    3600 seconds have passed, which leaves the store as it is: so at the
    issue and 3599 seconds later, and not 3601 seconds later. *)
Theorem generate_then_validate (session_id fresh : string) (now : Q) (sm : t)
    (tok : option string) (later : Q) :
  let sm' := snd (generate_csrf_token session_id fresh now sm) in
  fst (generate_csrf_token session_id fresh now sm) = fresh
  /\ csrf_tokens sm' !! session_id = Some (CsrfRecord fresh now)
  /\ (fst (validate_csrf_token session_id tok later sm') = true <->
        tok = Some fresh /\ (later - now <= 3600)%Q)
  /\ (validate_csrf_token session_id tok later sm' = (true, sm') <->
        tok = Some fresh /\ (later - now <= 3600)%Q)
  /\ fst (validate_csrf_token session_id (Some fresh) now sm') = true
  /\ fst (validate_csrf_token session_id (Some fresh) (now + 3599) sm') = true
  /\ fst (validate_csrf_token session_id (Some fresh) (now + 3601) sm') = false.
Proof.
  intros sm'.
  assert (csrf_tokens sm' !! session_id = Some (CsrfRecord fresh now)) as Hl
    by apply lookup_insert_eq.
  assert (forall tok later,
    validate_csrf_token session_id tok later sm' =
      if bool_decide (Some fresh <> tok) then (false, sm')
      else if Qltb 3600 (later - now)
           then (false, set_csrf_tokens (delete session_id) sm')
           else (true, sm')) as Hv.
  { intros tok0 later0. unfold validate_csrf_token. by rewrite Hl. }
  assert (forall tok later,
    validate_csrf_token session_id tok later sm' = (true, sm') <->
    tok = Some fresh /\ (later - now <= 3600)%Q) as Hiff.
  { intros tok0 later0. rewrite Hv. case_bool_decide as Ht.
    - split; [done|]. by intros [-> _].
    - subst tok0. destruct (Qltb 3600 (later0 - now)) eqn:Eq.
      + apply Qltb_lt in Eq. split; [done|]. intros [_ ?]. lra.
      + apply Qltb_ge in Eq. done. }
  assert (forall tok later,
    fst (validate_csrf_token session_id tok later sm') = true <->
    tok = Some fresh /\ (later - now <= 3600)%Q) as Hfst.
  { intros tok0 later0. rewrite <- Hiff, Hv.
    case_bool_decide; [done|]. by destruct (Qltb 3600 (later0 - now)). }
  split; [done|]. split; [done|]. split; [apply Hfst|]. split; [apply Hiff|].
  split; [apply Hfst; split; [done|lra]|].
  split; [apply Hfst; split; [done|lra]|].
  apply not_true_is_false. intros [_ ?]%Hfst. lra.
Qed.

(** ** The rate limiter *)

Section RateLimit.
Context (ip : string) (limit : Z) (window : Q).

Lemma rate_limit_unfold (now : Q) (sm : t) :
  rate_limit ip limit window now sm =
    let kept := recent now window (default [] (rate_limit_data sm !! ip)) in
    if (limit <=? Z.of_nat (length kept))%Z
    then (false, set_rate_limit_data (insert ip kept) sm)
    else (true, set_rate_limit_data (insert ip (kept ++ [now])) sm).
Proof.
  unfold rate_limit, set_rate_limit_data.
  destruct (rate_limit_data sm !! ip) as [h|] eqn:E; simpl.
  - rewrite E. simpl. by rewrite insert_insert_eq.
  - rewrite lookup_insert_eq. simpl. by rewrite !insert_insert_eq.
Qed.

Lemma history_insert (h : list Q) (sm : t) :
  default [] (rate_limit_data (set_rate_limit_data (insert ip h) sm) !! ip) = h.
Proof. simpl. by rewrite lookup_insert_eq. Qed.

Lemma recent_elem (now t0 : Q) (h : list Q) :
  t0 ∈ recent now window h <-> t0 ∈ h /\ (now - t0 < window)%Q.
Proof.
  unfold recent. rewrite !list_elem_of_In, filter_In, Qltb_lt. done.
Qed.

Lemma recent_all (now : Q) (h : list Q) :
  (forall t0, t0 ∈ h -> (now - t0 < window)%Q) -> recent now window h = h.
Proof.
  intros H. unfold recent. induction h as [|a h IH]; [done|]. simpl.
  rewrite (proj2 (Qltb_lt _ _)) by (apply H; left).
  f_equal. apply IH. intros t0 Ht. apply H. by right.
Qed.

Lemma recent_length_le (now : Q) (h : list Q) :
  (length (recent now window h) <= length h)%nat.
Proof. apply List.filter_length_le. Qed.

Lemma recent_length_lt (now t0 : Q) (h : list Q) :
  t0 ∈ h -> (window <= now - t0)%Q ->
  (length (recent now window h) < length h)%nat.
Proof.
  intros Hin Hold. induction Hin as [t0 h|t0 a h Hin IH]; simpl.
  - rewrite (proj2 (Qltb_ge _ _)) by done.
    pose proof (recent_length_le now h). unfold recent in *. lia.
  - specialize (IH Hold). unfold recent in *.
    destruct (Qltb (now - a) window); simpl; lia.
Qed.

Lemma requests_cons (now : Q) (times : list Q) (sm : t) :
  requests ip limit window (now :: times) sm =
    ((rate_limit ip limit window now sm).1
       :: (requests ip limit window times (rate_limit ip limit window now sm).2).1,
     (requests ip limit window times (rate_limit ip limit window now sm).2).2).
Proof.
  simpl. destruct (rate_limit ip limit window now sm) as [b sm1]. simpl.
  by destruct (requests ip limit window times sm1).
Qed.

(** As long as the history and the requests to come are no more than
    [limit] together, every request is admitted. *)
Lemma requests_admitted (times : list Q) (sm : t) :
  (Z.of_nat (length (default [] (rate_limit_data sm !! ip)) + length times)
     <= limit)%Z ->
  Forall (fun b => b = true) (requests ip limit window times sm).1.
Proof.
  revert sm. induction times as [|now times IH]; intros sm Hlen; [constructor|].
  rewrite requests_cons, rate_limit_unfold. cbv zeta. simpl length in Hlen.
  pose proof (recent_length_le now (default [] (rate_limit_data sm !! ip))) as Hk.
  destruct (Z.leb_spec limit
    (Z.of_nat (length (recent now window (default [] (rate_limit_data sm !! ip))))))
    as [Hle|Hlt]; [lia|].
  simpl. constructor; [done|]. apply IH.
  rewrite history_insert, length_app. simpl. lia.
Qed.

(** Requests that all lie less than a window before some instant [t'], and
    not after it, are all recorded, in their order. *)
Lemma requests_recorded (t' : Q) (times : list Q) (sm : t) :
  let h := default [] (rate_limit_data sm !! ip) in
  (Z.of_nat (length h + length times) <= limit)%Z ->
  (forall t0, t0 ∈ h ++ times -> (t0 <= t')%Q /\ (t' - t0 < window)%Q) ->
  default [] (rate_limit_data (requests ip limit window times sm).2 !! ip)
    = h ++ times.
Proof.
  revert sm. induction times as [|now times IH]; intros sm h Hlen Hin.
  - simpl. by rewrite app_nil_r.
  - rewrite requests_cons, rate_limit_unfold. cbv zeta. simpl length in Hlen.
    fold h.
    assert (recent now window h = h) as ->.
    { apply recent_all. intros t0 Ht.
      destruct (Hin t0) as [_ H1]; [apply elem_of_app; by left|].
      destruct (Hin now) as [H2 _]; [apply elem_of_app; right; by left|].
      lra. }
    destruct (Z.leb_spec limit (Z.of_nat (length h))) as [Hle|Hlt]; [lia|].
    simpl. rewrite IH; rewrite history_insert.
    + by rewrite <- app_assoc.
    + rewrite length_app. simpl. lia.
    + intros t0 Ht. apply Hin. by rewrite <- app_assoc in Ht.
Qed.
End RateLimit.

(** C4, as stated, fails at the boundary: a recorded request of exactly the
    window's age is not older than the window, so by the claim it stays and
    the next request is denied; the code discards it and admits. *)
Lemma rate_limit_discards_at_window :
  let sm := set_rate_limit_data (insert "10.0.0.1" [0%Q]) init in
  fst (rate_limit "10.0.0.1" 1 60 60 sm) = true
  /\ fst (rate_limit_claimed "10.0.0.1" 1 60 60 sm) = false
  /\ Qltb 60 (60 - 0) = false.
Proof. repeat split; vm_compute; reflexivity. Qed.

(** C4, amended. [rate_limit] keeps of the identity's recorded times those
    less than [window] seconds old (one of exactly that age goes); when at
    least [limit] remain it answers false and records nothing, else it
    appends the current time and answers true.  Hence, for an identity
    without history: up to [limit] requests are all admitted; after [limit]
    requests, a further one less than [window] seconds after each of them is
    denied and leaves the record as it was; and one that comes [window]
    seconds or more after any of them is admitted. *)
Theorem rate_limit_sliding_window (ip : string) (limit : Z) (window : Q) (sm : t) :
  (forall now,
     let hist := default [] (rate_limit_data sm !! ip) in
     let kept := recent now window hist in
     (forall t0, t0 ∈ kept <-> t0 ∈ hist /\ (now - t0 < window)%Q)
     /\ rate_limit ip limit window now sm =
          if (limit <=? Z.of_nat (length kept))%Z
          then (false, set_rate_limit_data (insert ip kept) sm)
          else (true, set_rate_limit_data (insert ip (kept ++ [now])) sm))
  /\ (forall times,
        rate_limit_data sm !! ip = None ->
        (Z.of_nat (length times) <= limit)%Z ->
        Forall (fun b => b = true) (requests ip limit window times sm).1)
  /\ (forall times t' t'',
        rate_limit_data sm !! ip = None ->
        Z.of_nat (length times) = limit ->
        (forall t0, t0 ∈ times -> (t0 <= t')%Q /\ (t' - t0 < window)%Q) ->
        let sm1 := (requests ip limit window times sm).2 in
        (rate_limit ip limit window t' sm1).1 = false
        /\ rate_limit_data (rate_limit ip limit window t' sm1).2 !! ip = Some times
        /\ ((exists t0, t0 ∈ times /\ (window <= t'' - t0)%Q) ->
            (rate_limit ip limit window t'' sm1).1 = true)).
Proof.
  split; [|split].
  - intros now hist kept.
    split; [intros t0; apply recent_elem|apply rate_limit_unfold].
  - intros times Hnone Hlen. apply requests_admitted. rewrite Hnone. simpl. lia.
  - intros times t' t'' Hnone Hlen Hin sm1.
    assert (default [] (rate_limit_data sm1 !! ip) = times) as Hh.
    { unfold sm1. rewrite (requests_recorded ip limit window t');
        rewrite Hnone; simpl; [done|lia|done]. }
    rewrite !rate_limit_unfold. cbv zeta. rewrite Hh.
    split; [|split].
    + rewrite recent_all by (intros t0 Ht; by apply Hin).
      by rewrite (proj2 (Z.leb_le _ _)) by lia.
    + rewrite recent_all by (intros t0 Ht; by apply Hin).
      rewrite (proj2 (Z.leb_le _ _)) by lia. simpl. apply lookup_insert_eq.
    + intros (t0 & Ht & Hold).
      pose proof (recent_length_lt window t'' t0 times Ht Hold).
      by rewrite (proj2 (Z.leb_gt _ _)) by lia.
Qed.

Lemma rate_limit_sliding_window_witness :
  Forall (fun b => b = true) (requests "10.0.0.1" 5 60 [0; 10; 20; 30; 40]%Q init).1
  /\ (rate_limit "10.0.0.1" 5 60 59
        (requests "10.0.0.1" 5 60 [0; 10; 20; 30; 40]%Q init).2).1 = false
  /\ (rate_limit "10.0.0.1" 5 60 60
        (requests "10.0.0.1" 5 60 [0; 10; 20; 30; 40]%Q init).2).1 = true.
Proof.
  destruct (rate_limit_sliding_window "10.0.0.1" 5 60 init) as (_ & Ha & Hb).
  split; [apply Ha; [reflexivity|simpl; lia]|].
  destruct (Hb [0; 10; 20; 30; 40]%Q 59%Q 60%Q eq_refl eq_refl) as (Hd & _ & Hr).
  - intros t0 Ht.
    repeat (apply elem_of_cons in Ht as [->|Ht]; [split; [discriminate|reflexivity]|]).
    by apply elem_of_nil in Ht.
  - split; [exact Hd|]. apply Hr. exists 0%Q. split; [by left|discriminate].
Defined.

(** ** The secure server *)

Lemma add_security_headers_lookup (r : Response) :
  let h := headers (add_security_headers r) in
  h !! "X-Content-Type-Options" = Some "nosniff"
  /\ h !! "X-Frame-Options" = Some "DENY"
  /\ h !! "X-XSS-Protection" = Some "1; mode=block"
  /\ h !! "Referrer-Policy" = Some "strict-origin-when-cross-origin"
  /\ h !! "Permissions-Policy" = Some "geolocation=(), microphone=(), camera=()"
  /\ h !! "Content-Security-Policy" = Some csp.
Proof.
  unfold add_security_headers, set_header. simpl.
  repeat split; by simplify_map_eq.
Qed.

Lemma add_security_headers_keeps (r : Response) :
  status (add_security_headers r) = status r
  /\ payload (add_security_headers r) = payload r.
Proof. done. Qed.

(** C7. Whatever the request, the state and the outside world, the response
    the server sends carries the five security headers with their fixed
    values and the Content-Security-Policy of the source, directive by
    directive. *)
Theorem security_headers_on_every_response (e : env) (req : request) (w : world) :
  let h := headers (handle_request e req w).1 in
  h !! "X-Content-Type-Options" = Some "nosniff"
  /\ h !! "X-Frame-Options" = Some "DENY"
  /\ h !! "X-XSS-Protection" = Some "1; mode=block"
  /\ h !! "Referrer-Policy" = Some "strict-origin-when-cross-origin"
  /\ h !! "Permissions-Policy" = Some "geolocation=(), microphone=(), camera=()"
  /\ h !! "Content-Security-Policy" =
       Some ("default-src 'self'; " +:+
             "script-src 'self' 'unsafe-inline' https://cdnjs.cloudflare.com https://fonts.googleapis.com; " +:+
             "style-src 'self' 'unsafe-inline' https://cdnjs.cloudflare.com https://fonts.googleapis.com; " +:+
             "font-src 'self' https://cdnjs.cloudflare.com https://fonts.gstatic.com; " +:+
             "img-src 'self' data: https:; " +:+
             "connect-src 'self'; " +:+
             "frame-src 'self' https://calendar.google.com; " +:+
             "object-src 'none'; " +:+
             "base-uri 'self'; " +:+
             "form-action 'self'; " +:+
             "frame-ancestors 'none';").
Proof.
  unfold handle_request.
  destruct (full_dispatch_request e req w) as [rv w'].
  exact (add_security_headers_lookup rv).
Qed.

(** C6. For a request that the limit of five per minute on [/submit-form]
    lets through: when [validate_csrf_token] refuses the token of the form,
    the view of [/submit-form] answers 403 with the body
    [{error: Invalid request}], and of the methods of the security manager it
    has called [validate_csrf_token] only. *)
Theorem submit_form_refuses_bad_csrf (e : env) (req : request) (w : world)
    (session_id : string) :
  limiter_allows e = true ->
  session w !! "session_id" = Some session_id ->
  (validate_csrf_token session_id (form req !! "csrf_token") (t_validate e)
     (sm w)).1 = false ->
  submit_form e req w =
    (Ok (MkResponse 403 (Json [("error", JStr (txt "Invalid request"))])
           {["Content-Type" := "application/json"]}),
     World
       (validate_csrf_token session_id (form req !! "csrf_token") (t_validate e)
          (sm w)).2
       (session w) (calls w ++ [CallValidateCsrf])).
Proof.
  intros Hl Hs Hv.
  unfold submit_form, limiter_limit. rewrite Hl. simpl.
  unfold submit_form_body, try_except, mbind, M_bind, session_get, invoke.
  simpl. rewrite Hs.
  destruct (validate_csrf_token _ _ _ _) as [valid sm'].
  simpl in Hv. subst valid. reflexivity.
Qed.

Lemma submit_form_refuses_bad_csrf_witness :
  let e := Env 0 0 0 0 5000 0 "u" "fresh" ∅ true in
  let req := Request "10.0.0.1" "POST" "/submit-form"
               {["csrf_token" := "tok"; "name" := "<script>"]} [] in
  let w := World (generate_csrf_token "s1" "tok" 0 init).2
             {["session_id" := "s1"]} [] in
  limiter_allows e = true
  /\ (validate_csrf_token "s1" (form req !! "csrf_token") (t_validate e) (sm w)).1
    = false
  /\ (submit_form e req w).1 =
       Ok (MkResponse 403 (Json [("error", JStr (txt "Invalid request"))])
             {["Content-Type" := "application/json"]})
  /\ calls (submit_form e req w).2 = [CallValidateCsrf].
Proof.
  intros e req w. split; [reflexivity|].
  split; [vm_compute; reflexivity|].
  rewrite (submit_form_refuses_bad_csrf e req w "s1");
    [split; reflexivity|reflexivity|reflexivity|vm_compute; reflexivity].
Defined.

(** *** The gatekeeper

    Each [abort] of [security_checks] is raised inside its [try] block, and
    what [abort] raises is an [Exception]: the handler of the block catches it
    and aborts with 500 in its place. *)

Lemma security_checks_raises_500_only (e : env) (req : request) (w w' : world)
    (ex : exn) :
  security_checks e req w = (Raise ex, w') -> ex = HTTPException 500.
Proof.
  unfold security_checks, try_except.
  match goal with |- context [match ?b with _ => _ end] =>
    destruct b as [[[]|ex0] w1] end; [done|].
  by intros [= <- _].
Qed.

Lemma security_checks_blocked (e : env) (req : request) (w : world) :
  remote_addr req ∈ blocked_ips (sm w) ->
  security_checks e req w = (Raise (HTTPException 500), w).
Proof.
  intros Hb. unfold security_checks, try_except, mbind, M_bind, read_sm.
  by rewrite (bool_decide_eq_true_2 _ Hb).
Qed.

Lemma security_checks_rate_limited (e : env) (req : request) (w : world) :
  remote_addr req ∉ blocked_ips (sm w) ->
  (rate_limit (remote_addr req) 20 60 (t_rate e) (sm w)).1 = false ->
  security_checks e req w =
    (Raise (HTTPException 500),
     World (rate_limit (remote_addr req) 20 60 (t_rate e) (sm w)).2
       (session w) (calls w ++ [CallRateLimit])).
Proof.
  intros Hb Hr.
  unfold security_checks, try_except, mbind, M_bind, read_sm, invoke.
  rewrite (bool_decide_eq_false_2 _ Hb). simpl.
  destruct (rate_limit _ _ _ _ _) as [allowed sm']. simpl in Hr. by subst.
Qed.


(** C1. Three requests and what the server answers: one from an identity of
    the block list, the twenty-first of an identity within a minute, and one
    whose text holds a script tag.  Each gets the status 500, where the claim
    has 403, 429 and 400; the third does put the identity on the block list,
    and its next request, harmless as it is, gets 500 too. *)
Theorem gatekeeper_answers_500 :
  let e := Env 100 7 100 100 100 100 "uuid" "tok" ∅ true in
  let get repr := Request "203.0.113.7" "GET" "/health" ∅ (txt repr) in
  let plain := get "<Request 'http://localhost:8000/health' [GET]>" in
  let attack :=
    get "<Request 'http://localhost:8000/health?q=<script>alert(1)</script>' [GET]>" in
  let blocked := World (set_blocked_ips (fun _ => {["203.0.113.7"]}) init) ∅ [] in
  let busy :=
    World (set_rate_limit_data (insert "203.0.113.7" (replicate 20 99%Q)) init)
      ∅ [] in
  let fresh := World init ∅ [] in
  status (handle_request e plain blocked).1 = 500%Z
  /\ status (handle_request e plain busy).1 = 500%Z
  /\ status (handle_request e attack fresh).1 = 500%Z
  /\ "203.0.113.7" ∈ blocked_ips (sm (handle_request e attack fresh).2)
  /\ status (handle_request e plain (handle_request e attack fresh).2).1 = 500%Z
  /\ status (handle_request e plain fresh).1 = 200%Z.
Proof.
  cbv zeta. repeat split; vm_compute; reflexivity.
Qed.

(** * Further properties of the code *)

(** ** The rate limiter, call by call *)

Lemma history_after_rate_limit (ip : string) (limit : Z) (window now : Q) (sm : t) :
  history ip (rate_limit ip limit window now sm).2 =
    if (limit <=? Z.of_nat (length (recent now window (history ip sm))))%Z
    then recent now window (history ip sm)
    else recent now window (history ip sm) ++ [now].
Proof.
  rewrite rate_limit_unfold. cbv zeta. fold (history ip sm).
  destruct (limit <=? _)%Z; unfold history; apply history_insert.
Qed.

Lemma answer_of_rate_limit (ip : string) (limit : Z) (window now : Q) (sm : t) :
  (rate_limit ip limit window now sm).1 =
    negb (limit <=? Z.of_nat (length (recent now window (history ip sm))))%Z.
Proof.
  rewrite rate_limit_unfold. cbv zeta. fold (history ip sm).
  by destruct (limit <=? _)%Z.
Qed.

(** X1. A call of [rate_limit] for one identity leaves the recorded requests
    of every other identity, the CSRF tokens and the block list as they
    were. *)
Theorem rate_limit_touches_one_identity (ip : string) (limit : Z)
    (window now : Q) (sm : t) :
  let sm' := (rate_limit ip limit window now sm).2 in
  csrf_tokens sm' = csrf_tokens sm
  /\ blocked_ips sm' = blocked_ips sm
  /\ forall other, other <> ip ->
       rate_limit_data sm' !! other = rate_limit_data sm !! other.
Proof.
  rewrite rate_limit_unfold. cbv zeta.
  destruct (limit <=? _)%Z; simpl; (split; [done|split; [done|]]);
    intros other Hne; by rewrite lookup_insert_ne.
Qed.

Lemma history_bounded_step (ip : string) (limit : Z) (window now : Q) (sm : t) :
  (Z.of_nat (length (history ip sm)) <= limit)%Z ->
  (Z.of_nat (length (history ip (rate_limit ip limit window now sm).2)) <= limit)%Z.
Proof.
  intros H. rewrite history_after_rate_limit.
  pose proof (recent_length_le window now (history ip sm)).
  destruct (Z.leb_spec limit
    (Z.of_nat (length (recent now window (history ip sm))))); [lia|].
  rewrite length_app. simpl. lia.
Qed.

(** X2. However many requests an identity without history makes, and at
    whatever times, the limiter never holds more than [limit] recorded
    requests for it. *)
Theorem rate_limit_history_bounded (ip : string) (limit : Z) (window : Q)
    (times : list Q) (sm : t) :
  (0 <= limit)%Z ->
  rate_limit_data sm !! ip = None ->
  (Z.of_nat (length (history ip (requests ip limit window times sm).2)) <= limit)%Z.
Proof.
  intros Hl Hnone.
  assert (Z.of_nat (length (history ip sm)) <= limit)%Z as H.
  { unfold history. rewrite Hnone. simpl. lia. }
  clear Hnone. revert sm H.
  induction times as [|now times IH]; intros sm H; [done|].
  rewrite requests_cons. simpl. apply IH. by apply history_bounded_step.
Qed.

Lemma rate_limit_history_bounded_witness :
  (Z.of_nat (length (history "10.0.0.1"
     (requests "10.0.0.1" 2 60 [5; 1; 70; 71; 71; 200]%Q init).2)) <= 2)%Z.
Proof.
  apply (rate_limit_history_bounded "10.0.0.1" 2 60 [5; 1; 70; 71; 71; 200]%Q init);
    [lia|reflexivity].
Defined.

(** ** The rate limiter under a clock that does not run backwards *)

Section SlidingWindow.
Context (ip : string) (limit : Z) (window : Q).

(** Pruning twice, the second time not earlier than the first, is pruning
    once at the second time. *)
Lemma recent_recent (b now : Q) (A : list Q) :
  (b <= now)%Q -> recent now window (recent b window A) = recent now window A.
Proof.
  intros Hb. unfold recent. induction A as [|a A IH]; [done|]. simpl.
  destruct (Qltb (b - a) window) eqn:E1; simpl; rewrite IH; [done|].
  apply Qltb_ge in E1.
  by rewrite (proj2 (Qltb_ge (now - a) window)) by lra.
Qed.

Lemma recent_snoc (now : Q) (A : list Q) :
  (0 < window)%Q -> recent now window (A ++ [now]) = recent now window A ++ [now].
Proof.
  intros Hw. unfold recent. rewrite List.filter_app. simpl.
  by rewrite (proj2 (Qltb_lt (now - now) window)) by lra.
Qed.

(** Along a run of requests at times that never decrease, what the limiter
    holds is the admitted requests pruned at the time of the last call. *)
Lemma requests_history_admitted (times : list Q) (sm : t) (A : list Q) (b : Q) :
  (0 < window)%Q ->
  history ip sm = recent b window A ->
  Forall (Qle b) times -> StronglySorted Qle times ->
  exists b', b' ∈ b :: times
    /\ history ip (requests ip limit window times sm).2 =
         recent b' window (A ++ admitted times (requests ip limit window times sm).1).
Proof.
  intros Hw. revert sm A b.
  induction times as [|now times IH]; intros sm A b Hh Hb Hs.
  - exists b. split; [by left|]. simpl. by rewrite app_nil_r.
  - apply Forall_cons in Hb as [Hb _].
    apply StronglySorted_cons in Hs as [Hnow Hs].
    rewrite requests_cons. simpl.
    destruct (IH (rate_limit ip limit window now sm).2
                (A ++ admitted [now] [(rate_limit ip limit window now sm).1]) now)
      as (b' & Hin & Hb'); [|done|done|].
    + rewrite history_after_rate_limit, answer_of_rate_limit, Hh.
      rewrite recent_recent by done.
      destruct (limit <=? _)%Z; simpl; [by rewrite app_nil_r|by rewrite recent_snoc].
    + exists b'. split; [by right|]. rewrite Hb'. f_equal.
      rewrite <- app_assoc. f_equal.
      by destruct (rate_limit ip limit window now sm).1.
Qed.

Lemma sorted_before_last (pre : list Q) (now : Q) :
  StronglySorted Qle (pre ++ [now]) ->
  StronglySorted Qle pre /\ Forall (fun t0 => (t0 <= now)%Q) pre.
Proof.
  intros H. split; [by apply StronglySorted_app_1_l in H|].
  apply Forall_forall. intros t0 Ht.
  apply (StronglySorted_app_1_elem_of _ _ _ _ _ H Ht). by left.
Qed.
End SlidingWindow.

(** X3. With a positive window and a clock that does not run backwards, a
    request of an identity without prior history is admitted only when fewer
    than [limit] of its earlier admitted requests are less than [window]
    seconds old: counting itself, never more than [limit] admitted requests
    lie within one window. *)
Theorem rate_limit_never_exceeds_limit (ip : string) (limit : Z) (window : Q)
    (pre : list Q) (now : Q) (sm : t) :
  (0 < window)%Q ->
  rate_limit_data sm !! ip = None ->
  StronglySorted Qle (pre ++ [now]) ->
  (rate_limit ip limit window now (requests ip limit window pre sm).2).1 = true ->
  (Z.of_nat (length (recent now window
     (admitted pre (requests ip limit window pre sm).1))) < limit)%Z.
Proof.
  intros Hw Hnone [Hs Hle]%sorted_before_last Hadm.
  destruct (requests_history_admitted ip limit window pre sm [] (hd now pre) Hw)
    as (b' & Hin & Hh); [by unfold history; rewrite Hnone|..|done|].
  - destruct pre as [|t1 pre]; [constructor|]. simpl.
    apply StronglySorted_cons in Hs as [Hs _]. constructor; [apply Qle_refl|done].
  - assert (b' <= now)%Q as Hb'.
    { rewrite Forall_forall in Hle.
      apply elem_of_cons in Hin as [->|Hin]; [|by apply Hle].
      destruct pre as [|t1 pre]; simpl; [apply Qle_refl|apply Hle; by left]. }
    rewrite answer_of_rate_limit, Hh in Hadm. simpl in Hadm.
    rewrite recent_recent in Hadm by done.
    apply negb_true_iff, Z.leb_gt in Hadm. done.
Qed.

Lemma rate_limit_never_exceeds_limit_witness :
  (Z.of_nat (length (recent 61 60
     (admitted [0; 30; 31]%Q (requests "10.0.0.1" 2 60 [0; 30; 31]%Q init).1))) < 2)%Z.
Proof.
  apply (rate_limit_never_exceeds_limit "10.0.0.1" 2 60 [0; 30; 31]%Q 61 init);
    [reflexivity|reflexivity| |vm_compute; reflexivity].
  repeat (apply StronglySorted_cons; split;
          [repeat (constructor; [discriminate|]); constructor|]).
  constructor.
Defined.

(** ** The CSRF token store, session by session *)

Lemma validate_csrf_token_lookup (sid : string) (tok : option string) (now : Q)
    (sm : t) :
  (validate_csrf_token sid tok now sm).1 =
    match csrf_tokens sm !! sid with
    | Some r =>
        bool_decide (Some (token r) = tok) && negb (Qltb 3600 (now - timestamp r))
    | None => false
    end.
Proof.
  unfold validate_csrf_token. destruct (csrf_tokens sm !! sid) as [r|]; [|done].
  destruct (decide (Some (token r) = tok)) as [H|H].
  - rewrite (bool_decide_eq_false_2 (Some (token r) <> tok)) by tauto.
    rewrite (bool_decide_eq_true_2 _ H). by destruct (Qltb 3600 _).
  - by rewrite (bool_decide_eq_true_2 _ H), (bool_decide_eq_false_2 _ H).
Qed.

Lemma validate_csrf_token_other (sid other : string) (tok : option string)
    (now : Q) (sm : t) :
  other <> sid ->
  csrf_tokens (validate_csrf_token sid tok now sm).2 !! other
    = csrf_tokens sm !! other.
Proof.
  intros Hne. unfold validate_csrf_token.
  destruct (csrf_tokens sm !! sid) as [r|]; [|done].
  destruct (bool_decide _); [done|].
  destruct (Qltb 3600 _); [|done]. simpl. by rewrite lookup_delete_ne.
Qed.

(** X4. Issuing a token for one session, or validating one (the deletion of
    an expired record included), never changes what a validation for another
    session answers. *)
Theorem csrf_sessions_independent (sid other fresh : string)
    (tok tok' : option string) (now later : Q) (sm : t) :
  other <> sid ->
  (validate_csrf_token other tok' later (generate_csrf_token sid fresh now sm).2).1
    = (validate_csrf_token other tok' later sm).1
  /\ (validate_csrf_token other tok' later (validate_csrf_token sid tok now sm).2).1
     = (validate_csrf_token other tok' later sm).1.
Proof.
  intros Hne. rewrite !validate_csrf_token_lookup.
  rewrite validate_csrf_token_other by done.
  split; [|done]. simpl. by rewrite lookup_insert_ne.
Qed.

Lemma csrf_sessions_independent_witness :
  let sm := (generate_csrf_token "alice" "ta" 0 init).2 in
  (validate_csrf_token "alice" (Some "ta") 100
     (generate_csrf_token "bob" "tb" 50 sm).2).1 = true
  /\ (validate_csrf_token "alice" (Some "ta") 100
       (validate_csrf_token "bob" (Some "tb") 99 sm).2).1 = true.
Proof.
  intros sm.
  destruct (csrf_sessions_independent "bob" "alice" "tb" (Some "tb") (Some "ta")
              50 100 sm ltac:(discriminate)) as [H1 _].
  destruct (csrf_sessions_independent "bob" "alice" "tb" (Some "tb") (Some "ta")
              99 100 sm ltac:(discriminate)) as [_ H2].
  rewrite H1, H2. split; vm_compute; reflexivity.
Defined.

(** X5. Once a validation has found the session's token expired, the record
    is gone: every later validation for that session fails, whatever token
    is presented and whatever the clock says, until a new token is issued. *)
Theorem expired_token_stays_invalid (sid : string) (r : csrf_record) (now : Q)
    (sm : t) (tok' : option string) (later : Q) :
  csrf_tokens sm !! sid = Some r ->
  (3600 < now - timestamp r)%Q ->
  (validate_csrf_token sid tok' later
     (validate_csrf_token sid (Some (token r)) now sm).2).1 = false.
Proof.
  intros Hr Hexp. rewrite validate_csrf_token_lookup.
  unfold validate_csrf_token at 1. rewrite Hr.
  rewrite (bool_decide_eq_false_2 (Some (token r) <> Some (token r))) by tauto.
  rewrite (proj2 (Qltb_lt _ _) Hexp). simpl. by rewrite lookup_delete_eq.
Qed.

Lemma expired_token_stays_invalid_witness :
  (validate_csrf_token "s1" (Some "tok") 10
     (validate_csrf_token "s1" (Some "tok") 3601
        (generate_csrf_token "s1" "tok" 0 init).2).2).1 = false.
Proof.
  apply (expired_token_stays_invalid "s1" (CsrfRecord "tok" 0) 3601
           (generate_csrf_token "s1" "tok" 0 init).2 (Some "tok") 10);
    reflexivity.
Defined.

(** ** Housekeeping *)

Lemma clean_csrf_lookup (now : Q) (sm : t) (sid : string) :
  csrf_tokens (clean_session_data now sm) !! sid =
    match csrf_tokens sm !! sid with
    | Some r => if Qltb 3600 (now - timestamp r) then None else Some r
    | None => None
    end.
Proof.
  unfold clean_session_data. simpl. rewrite map_lookup_filter.
  destruct (csrf_tokens sm !! sid) as [r|]; [|done]. simpl.
  by destruct (Qltb 3600 (now - timestamp r)).
Qed.

Lemma clean_history (now : Q) (sm : t) (ip : string) :
  history ip (clean_session_data now sm) = recent now 300 (history ip sm).
Proof.
  unfold history, clean_session_data. simpl. rewrite lookup_omap.
  destruct (rate_limit_data sm !! ip) as [h|]; [|done]. simpl.
  by destruct (recent now 300 h).
Qed.

(** A later pruning with a window no wider makes an earlier one
    redundant. *)
Lemma recent_recent_wider (b now w1 w2 : Q) (A : list Q) :
  (b <= now)%Q -> (w2 <= w1)%Q ->
  recent now w2 (recent b w1 A) = recent now w2 A.
Proof.
  intros Hb Hw. unfold recent. induction A as [|a A IH]; [done|]. simpl.
  destruct (Qltb (b - a) w1) eqn:E1; simpl; rewrite IH; [done|].
  apply Qltb_ge in E1.
  by rewrite (proj2 (Qltb_ge (now - a) w2)) by lra.
Qed.

(** X6. Housekeeping is invisible to validation: a validation made at the
    time of the cleaning or later answers the same with and without it. *)
Theorem clean_keeps_validation (now later : Q) (sm : t) (sid : string)
    (tok : option string) :
  (now <= later)%Q ->
  (validate_csrf_token sid tok later (clean_session_data now sm)).1
    = (validate_csrf_token sid tok later sm).1.
Proof.
  intros Hle. rewrite !validate_csrf_token_lookup, clean_csrf_lookup.
  destruct (csrf_tokens sm !! sid) as [r|]; [|done].
  destruct (Qltb 3600 (now - timestamp r)) eqn:E; [|done].
  apply Qltb_lt in E.
  rewrite (proj2 (Qltb_lt 3600 (later - timestamp r))) by lra.
  by rewrite andb_false_r.
Qed.

Lemma clean_keeps_validation_witness :
  let sm := (generate_csrf_token "new" "t2" 3000
               (generate_csrf_token "old" "t1" 0 init).2).2 in
  (validate_csrf_token "new" (Some "t2") 3700 (clean_session_data 3650 sm)).1 = true
  /\ (validate_csrf_token "old" (Some "t1") 3700 (clean_session_data 3650 sm)).1
     = false.
Proof.
  intros sm.
  rewrite !(clean_keeps_validation 3650 3700 sm) by discriminate.
  split; vm_compute; reflexivity.
Defined.

(** X7. Housekeeping is invisible to the limiter as well: for a window of at
    most 300 seconds, a call of [rate_limit] at the time of the cleaning or
    later answers the same with and without it. *)
Theorem clean_keeps_rate_limit (now later : Q) (sm : t) (ip : string)
    (limit : Z) (window : Q) :
  (now <= later)%Q -> (window <= 300)%Q ->
  (rate_limit ip limit window later (clean_session_data now sm)).1
    = (rate_limit ip limit window later sm).1.
Proof.
  intros Hle Hw. rewrite !answer_of_rate_limit, clean_history.
  by rewrite recent_recent_wider.
Qed.

Lemma clean_keeps_rate_limit_witness :
  let sm := (requests "10.0.0.1" 2 60 [0; 290]%Q init).2 in
  (rate_limit "10.0.0.1" 2 60 300 (clean_session_data 300 sm)).1 = true.
Proof.
  intros sm.
  rewrite (clean_keeps_rate_limit 300 300 sm "10.0.0.1" 2 60) by discriminate.
  vm_compute; reflexivity.
Defined.

(** X8. After housekeeping at [now] no CSRF record is older than 3600
    seconds, no identity is left with an empty list of requests, every
    request still recorded is less than 300 seconds old, and the block list
    is what it was. *)
Theorem clean_session_data_result (now : Q) (sm : t) :
  let sm' := clean_session_data now sm in
  (forall sid r, csrf_tokens sm' !! sid = Some r ->
     csrf_tokens sm !! sid = Some r /\ (now - timestamp r <= 3600)%Q)
  /\ (forall ip h, rate_limit_data sm' !! ip = Some h ->
        h <> [] /\ Forall (fun t0 => (now - t0 < 300)%Q) h)
  /\ blocked_ips sm' = blocked_ips sm.
Proof.
  split; [|split; [|done]].
  - intros sid r. rewrite clean_csrf_lookup.
    destruct (csrf_tokens sm !! sid) as [r'|]; [|done].
    destruct (Qltb 3600 (now - timestamp r')) eqn:E; [done|].
    intros [= <-]. split; [done|]. by apply Qltb_ge.
  - intros ip h. unfold clean_session_data. simpl. rewrite lookup_omap.
    destruct (rate_limit_data sm !! ip) as [h0|]; [|done]. simpl.
    destruct (recent now 300 h0) as [|a k] eqn:E; [done|]. intros [= <-].
    split; [done|]. rewrite <- E. apply Forall_forall. intros t0 Ht.
    by apply recent_elem in Ht as [_ Ht].
Qed.

Lemma clean_session_data_result_witness :
  let sm := (requests "10.0.0.1" 5 60 [0; 290]%Q
               (generate_csrf_token "fresh" "t1" 200 init).2).2 in
  (310 - 200 <= 3600)%Q
  /\ Forall (fun t0 => (310 - t0 < 300)%Q) [290%Q]
  /\ blocked_ips (clean_session_data 310 sm) = blocked_ips sm.
Proof.
  intros sm.
  destruct (clean_session_data_result 310 sm) as (Hc & Hr & Hb).
  destruct (Hc "fresh" (CsrfRecord "t1" 200)) as [_ H1]; [vm_compute; reflexivity|].
  destruct (Hr "10.0.0.1" [290%Q]) as [_ H2]; [vm_compute; reflexivity|].
  exact (conj H1 (conj H2 Hb)).
Defined.

(** ** The sanitizer, further *)

Lemma subst_matches_sublist (m : text -> option nat) (skip : nat) (s : text) :
  subst_matches m [] skip s `sublist_of` s.
Proof.
  revert skip. induction s as [|x s IH]; intros skip; simpl; [done|].
  destruct skip; [|by apply sublist_cons].
  destruct (m (x :: s)) as [[|n]|]; simpl;
    first [by apply sublist_skip | by apply sublist_cons].
Qed.

Lemma lstrip_sublist (s : text) : lstrip s `sublist_of` s.
Proof.
  destruct (lstrip_suffix s) as [k Hk]. rewrite Hk at 2.
  by apply sublist_inserts_l.
Qed.

Lemma rstrip_sublist (s : text) : rstrip s `sublist_of` s.
Proof.
  destruct (rstrip_prefix s) as [k Hk]. rewrite Hk at 2.
  by apply sublist_inserts_r.
Qed.

Lemma strip_sublist (s : text) : strip s `sublist_of` s.
Proof.
  unfold strip. etrans; [apply rstrip_sublist|apply lstrip_sublist].
Qed.

Lemma remove_dangerous_sublist (x : text) : remove_dangerous x `sublist_of` x.
Proof.
  unfold remove_dangerous, str_replace. simpl.
  repeat (etrans; [apply subst_matches_sublist|]). done.
Qed.

(** X9. What [sanitize_input] returns is its input with characters taken
    out: the characters it keeps stand in their order, none is added or
    changed, and the result is never longer than the input. *)
Theorem sanitize_input_only_deletes (x : text) :
  sanitize_input x `sublist_of` x
  /\ (length (sanitize_input x) <= length x)%nat.
Proof.
  assert (sanitize_input x `sublist_of` x) as H.
  { destruct (decide (x = [])) as [->|Hx]; [done|].
    rewrite sanitize_input_unfold by done.
    rewrite html_escape_clean
      by apply not_special_Forall, remove_dangerous_gone.
    etrans; [apply strip_sublist|]. unfold re_sub.
    etrans; [apply subst_matches_sublist|].
    etrans; [apply subst_matches_sublist|]. apply remove_dangerous_sublist. }
  split; [done|by apply sublist_length].
Qed.

Lemma lstrip_head (s : text) (c : ascii) :
  head (lstrip s) = Some c -> is_space c = false.
Proof.
  induction s as [|x s IH]; simpl; [done|].
  destruct (is_space x) eqn:E; [done|]. simpl. by intros [= <-].
Qed.

Lemma head_rev (s : text) : head (rev s) = last s.
Proof.
  induction s as [|a s IH]; [done|]. simpl rev.
  destruct s as [|b s]; [done|].
  change (last (a :: b :: s)) with (last (b :: s)). rewrite <- IH.
  simpl. by destruct (rev s).
Qed.

Lemma strip_ends (s : text) (c : ascii) :
  head (strip s) = Some c \/ last (strip s) = Some c -> is_space c = false.
Proof.
  unfold strip. intros [H|H].
  - rewrite <- (lstrip_rstrip (lstrip s)) in H by apply lstrip_idem.
    by apply lstrip_head in H.
  - rewrite <- head_rev in H. unfold rstrip in H. rewrite rev_involutive in H.
    by apply lstrip_head in H.
Qed.

(** X10. The text [sanitize_input] returns neither begins nor ends with a
    blank character. *)
Theorem sanitize_input_has_no_outer_blank (x : text) (c : ascii) :
  head (sanitize_input x) = Some c \/ last (sanitize_input x) = Some c ->
  is_space c = false.
Proof. rewrite <- sanitize_input_stripped. apply strip_ends. Qed.

Lemma sanitize_input_has_no_outer_blank_witness :
  is_space "B" = false /\ is_space "." = false.
Proof.
  split.
  - apply (sanitize_input_has_no_outer_blank (txt "  <Bob> says hi. ") "B").
    left. vm_compute. reflexivity.
  - apply (sanitize_input_has_no_outer_blank (txt "  <Bob> says hi. ") ".").
    right. vm_compute. reflexivity.
Defined.

Lemma starts_with_elem (old s : text) (c : ascii) :
  starts_with old s = true -> c ∈ old -> c ∈ s.
Proof.
  revert s. induction old as [|a old IH]; intros s H Hc; [by apply elem_of_nil in Hc|].
  destruct s as [|b s]; [done|]. simpl in H.
  apply andb_true_iff in H as [->%eqc_eq H].
  apply elem_of_cons in Hc as [->|Hc]; [by left|right; by apply IH].
Qed.

(** A word with a character that does not occur in [s] does not occur in
    [s]. *)
Lemma contains_needs (old s : text) (c : ascii) :
  c ∈ old -> c ∉ s -> contains old s = false.
Proof.
  intros Hc Hs. apply not_true_is_false.
  intros (u & n & [k ->] & Hm)%occurs_true.
  unfold prefix_len in Hm. destruct (starts_with old u) eqn:E; [|done].
  apply Hs, elem_of_app. right. by apply (starts_with_elem old).
Qed.

Lemma eqc_i_equals (x : ascii) : eqc_i "=" x = true -> x = "="%char.
Proof. ascii_cases x. Qed.

(** The heart of the next two properties: a text without any of the five
    special characters, without colon and without equals sign, in which
    neither [onload] nor [onerror] occurs, is only stripped. *)
Lemma sanitize_input_of_harmless (x : text) :
  Forall (fun c => ~ special c) x -> ":"%char ∉ x -> "="%char ∉ x ->
  contains (txt "onload") x = false -> contains (txt "onerror") x = false ->
  sanitize_input x = strip x.
Proof.
  intros Hsp Hcolon Heq Hl He.
  destruct (decide (x = [])) as [->|Hx]; [done|].
  rewrite sanitize_input_unfold by done.
  assert (remove_dangerous x = x) as ->.
  { apply remove_dangerous_settled; [done|]. unfold settled, dangerous_words.
    cbn [forallb]. rewrite Hl, He.
    rewrite !(contains_needs _ x ":"%char) by (done || (vm_compute; set_solver)).
    simpl. apply negb_true_iff, not_true_is_false.
    intros (c & Hc & ->%eqc_i_equals)%(re_search_mandatory (eqc_i "=")
      (lit_i (txt "on") ++ [Cls is_word (Greedy 1); Cls is_space (Greedy 0)]) []).
    done. }
  rewrite html_escape_clean by done. unfold re_sub.
  rewrite (subst_matches_id (match_here script_pattern))
    by by apply re_search_script_clean.
  rewrite subst_matches_id; [done|].
  apply not_true_is_false.
  intros (c & Hc & ->%eqc_i_equals)%(re_search_mandatory (eqc_i "=")
    (lit_i (txt "on") ++ [Cls is_word (Greedy 1); Cls is_space (Greedy 0)]) []).
  done.
Qed.

(** X11. A text that holds none of the characters less-than, greater-than,
    double quote, apostrophe, ampersand, colon and equals sign, and in which
    neither [onload] nor [onerror] occurs, comes out of [sanitize_input] as
    it went in, but for the blanks at its two ends. *)
Theorem sanitize_input_keeps_harmless_text (x : text) :
  Forall (fun c => c ∉ ["<"; ">"; "034"; "'"; "&"; ":"; "="]%char) x ->
  contains (txt "onload") x = false -> contains (txt "onerror") x = false ->
  sanitize_input x = strip x.
Proof.
  intros H Hl He. rewrite Forall_forall in H.
  apply sanitize_input_of_harmless; [|..|done|done].
  - apply Forall_forall. intros c Hc Hsp. apply (H c Hc).
    destruct Hsp as [->|[->|[->|[->| ->]]]]; set_solver.
  - intros Hc. apply (H _ Hc). set_solver.
  - intros Hc. apply (H _ Hc). set_solver.
Qed.

Lemma sanitize_input_keeps_harmless_text_witness :
  sanitize_input (txt "  Ann-Marie Online, 3rd floor  ")
    = txt "Ann-Marie Online, 3rd floor".
Proof.
  rewrite (sanitize_input_keeps_harmless_text (txt "  Ann-Marie Online, 3rd floor  "));
    [vm_compute; reflexivity| |vm_compute; reflexivity..].
  unfold txt. simpl.
  repeat (constructor;
    [intros H; repeat (apply elem_of_cons in H as [H|H]; [discriminate H|]);
     by apply elem_of_nil in H|]).
  constructor.
Defined.

(** ** The scan for suspicious requests *)

Lemma match_here_lit_i_chars (w s : text) (n : nat) (c : ascii) :
  match_here (lit_i w) s = Some n -> c ∈ w ->
  exists x, x ∈ s /\ eqc_i c x = true.
Proof.
  revert s n. induction w as [|a w IH]; intros s n Hm Hc;
    [by apply elem_of_nil in Hc|].
  simpl in Hm. destruct s as [|x s]; [done|].
  destruct (eqc_i a x) eqn:E; [|done].
  destruct (match_here (lit_i w) s) as [n'|] eqn:Em; [|done].
  apply elem_of_cons in Hc as [->|Hc].
  - exists x. split; [by left|done].
  - destruct (IH s n' Em Hc) as (y & Hy & Hcy). exists y. split; [by right|done].
Qed.

Lemma re_search_lit_i_chars (w s : text) (c : ascii) :
  re_search (lit_i w) s = true -> c ∈ w -> exists x, x ∈ s /\ eqc_i c x = true.
Proof.
  intros (u & n & [k ->] & Hm)%occurs_true Hc.
  destruct (match_here_lit_i_chars w u n c Hm Hc) as (x & Hx & Hcx).
  exists x. split; [|done]. apply elem_of_app. by right.
Qed.

Lemma to_lower_lt (x : ascii) : to_lower x = "<"%char -> x = "<"%char.
Proof. ascii_cases x. Qed.

Lemma to_lower_colon (x : ascii) : to_lower x = ":"%char -> x = ":"%char.
Proof. ascii_cases x. Qed.

Lemma to_lower_idem (x : ascii) : to_lower (to_lower x) = to_lower x.
Proof. ascii_cases x. Qed.

Lemma request_pattern_marked (p : pattern) :
  p ∈ request_suspicious_patterns ->
  exists w, p = lit_i w /\ ("<"%char ∈ w \/ ":"%char ∈ w).
Proof.
  revert p. apply Forall_forall. unfold request_suspicious_patterns.
  cbn [map]. unfold txt. simpl String.list_ascii_of_string.
  repeat (constructor;
    [eexists; split; [reflexivity|]; first [by left; left|right; set_solver]|]).
  constructor.
Qed.

(** X12. [is_suspicious_request] never flags a text that holds neither a
    less-than sign nor a colon: each of its patterns has one of the two. *)
Theorem plain_text_is_not_suspicious (s : text) :
  "<"%char ∉ s -> ":"%char ∉ s -> is_suspicious_request s = false.
Proof.
  intros Hlt Hcolon. apply not_true_is_false. unfold is_suspicious_request.
  intros (p & Hp & Hs)%existsb_exists.
  apply list_elem_of_In, request_pattern_marked in Hp as (w & -> & [Hw|Hw]);
    destruct (re_search_lit_i_chars w (lower s) _ Hs Hw) as (x & Hx & Hcx);
    apply list_elem_of_fmap in Hx as (y & -> & Hy).
  - apply eqc_i_lt, to_lower_lt in Hcx as ->. done.
  - apply eqc_i_colon, to_lower_colon in Hcx as ->. done.
Qed.

Lemma plain_text_is_not_suspicious_witness :
  is_suspicious_request (txt "GET /health?probe=1 (script) javascript") = false.
Proof.
  apply (plain_text_is_not_suspicious (txt "GET /health?probe=1 (script) javascript"));
    apply (bool_decide_eq_false_1 _); vm_compute; reflexivity.
Defined.

Lemma occurs_app (m : text -> option nat) (pre s : text) :
  occurs m s = true -> occurs m (pre ++ s) = true.
Proof.
  intros H. induction pre as [|x pre IH]; [done|]. simpl.
  by destruct (m (x :: pre ++ s)).
Qed.

Lemma occurs_here (m : text -> option nat) (s : text) :
  is_Some (m s) -> occurs m s = true.
Proof. intros [n Hn]. destruct s; simpl; by rewrite Hn. Qed.

Lemma match_here_lit_i_self (w post : text) :
  match_here (lit_i w) (w ++ post) = Some (length w).
Proof.
  induction w as [|a w IH]; [done|]. simpl.
  unfold eqc_i at 1. rewrite Ascii.eqb_refl. simpl. by rewrite IH.
Qed.

Lemma eqc_i_lower_r (a b : ascii) : eqc_i a (to_lower b) = eqc_i a b.
Proof. unfold eqc_i. by rewrite to_lower_idem. Qed.

(** X13. [is_suspicious_request] flags every text in which one of its words
    occurs, in whatever mix of upper and lower case. *)
Theorem suspicious_word_is_flagged (w pre u post : text) :
  lit_i w ∈ request_suspicious_patterns ->
  lower u = w ->
  is_suspicious_request (pre ++ u ++ post) = true.
Proof.
  intros Hw Hu. unfold is_suspicious_request. apply existsb_exists.
  exists (lit_i w). split; [by apply list_elem_of_In|].
  unfold lower. rewrite !map_app. fold (lower u). rewrite Hu.
  apply occurs_app, occurs_here. by rewrite match_here_lit_i_self.
Qed.

Lemma suspicious_word_is_flagged_witness :
  is_suspicious_request
    (txt "<Request 'http://h/?q=" ++ txt "<IFrame" ++ txt " src=x>' [GET]>") = true.
Proof.
  apply (suspicious_word_is_flagged (txt "<iframe")); [|reflexivity].
  unfold request_suspicious_patterns. cbn [map]. do 4 right. left.
Defined.

(** ** The matcher against the shape of the text *)

Section Shape.
Context (c : ascii -> bool) (k : text -> option nat).

Lemma exactly_inv (n : nat) (s : text) (m : nat) :
  exactly n c k s = Some m ->
  exists u s' m', s = u ++ s' /\ length u = n
    /\ Forall (fun x => c x = true) u /\ k s' = Some m'.
Proof.
  revert s m. induction n as [|n IH]; intros s m; simpl.
  - intros H. by exists [], s, m.
  - destruct s as [|x s]; [done|]. destruct (c x) eqn:E; [|done].
    destruct (exactly n c k s) as [m0|] eqn:Em; [|done]. intros _.
    destruct (IH s m0 Em) as (u & s' & m' & -> & Hl & Hu & Hk).
    exists (x :: u), s', m'. simpl. rewrite Hl. by repeat constructor.
Qed.

Lemma greedy_inv (s : text) (m : nat) :
  greedy c k s = Some m ->
  exists u s' m', s = u ++ s' /\ Forall (fun x => c x = true) u /\ k s' = Some m'.
Proof.
  revert m. induction s as [|x s IH]; intros m; simpl.
  - intros H. by exists [], [], m.
  - destruct (c x) eqn:E; [|intros H; by exists [], (x :: s), m].
    destruct (greedy c k s) as [m0|] eqn:Eg; [|intros H; by exists [], (x :: s), m].
    intros _. destruct (IH m0 eq_refl) as (u & s' & m' & -> & Hu & Hk).
    exists (x :: u), s', m'. by repeat constructor.
Qed.

Lemma lazy_inv (s : text) (m : nat) :
  lazy c k s = Some m ->
  exists u s' m', s = u ++ s' /\ Forall (fun x => c x = true) u /\ k s' = Some m'.
Proof.
  revert m. induction s as [|x s IH]; intros m; simpl.
  - destruct (k []) as [m0|] eqn:E; [|done]. intros _. by exists [], [], m0.
  - destruct (k (x :: s)) as [m0|] eqn:E; [intros _; by exists [], (x :: s), m0|].
    destruct (c x) eqn:Ec; [|done].
    destruct (lazy c k s) as [m1|] eqn:El; [|done]. intros _.
    destruct (IH m1 eq_refl) as (u & s' & m' & -> & Hu & Hk).
    exists (x :: u), s', m'. by repeat constructor.
Qed.

Lemma exactly_complete (u s' : text) :
  Forall (fun x => c x = true) u -> is_Some (k s') ->
  is_Some (exactly (length u) c k (u ++ s')).
Proof.
  intros Hu Hk. induction Hu as [|x u Hx Hu IH]; [done|]. simpl.
  rewrite Hx. destruct IH as [m ->]. by eexists.
Qed.

Lemma greedy_complete (u s' : text) :
  Forall (fun x => c x = true) u -> is_Some (k s') ->
  is_Some (greedy c k (u ++ s')).
Proof.
  intros Hu Hk. induction Hu as [|x u Hx Hu IH]; simpl.
  - destruct s' as [|y s']; simpl; [done|].
    destruct (c y); [|done]. by destruct (greedy c k s').
  - rewrite Hx. destruct IH as [m ->]. by eexists.
Qed.

Lemma lazy_complete (u s' : text) :
  Forall (fun x => c x = true) u -> is_Some (k s') ->
  is_Some (lazy c k (u ++ s')).
Proof.
  intros Hu Hk. induction Hu as [|x u Hx Hu IH]; simpl.
  - destruct Hk as [m Hm]. destruct s'; simpl; rewrite Hm; by eexists.
  - destruct (k (x :: u ++ s')); [by eexists|].
    rewrite Hx. destruct IH as [m ->]. by eexists.
Qed.
End Shape.

Lemma match_here_accepts (p : pattern) (s : text) (m : nat) :
  match_here p s = Some m -> accepts p s.
Proof.
  revert s m. induction p as [|[c [n|n|n]|] p IH]; intros s m; simpl; [done|..].
  - intros (u & s' & m' & -> & Hl & Hu & Hk)%exactly_inv.
    exists u, s'. eauto.
  - intros (u & s' & m' & -> & Hl & Hu & Hk)%exactly_inv.
    apply greedy_inv in Hk as (u2 & s2 & m2 & -> & Hu2 & Hk).
    exists (u ++ u2), s2. rewrite length_app, <- app_assoc.
    split; [done|]. split; [lia|]. split; [by apply Forall_app|eauto].
  - intros (u & s' & m' & -> & Hl & Hu & Hk)%exactly_inv.
    apply lazy_inv in Hk as (u2 & s2 & m2 & -> & Hu2 & Hk).
    exists (u ++ u2), s2. rewrite length_app, <- app_assoc.
    split; [done|]. split; [lia|]. split; [by apply Forall_app|eauto].
  - destruct (at_eos s); [|done]. eauto.
Qed.

Lemma accepts_match_here (p : pattern) (s : text) :
  accepts p s -> is_Some (match_here p s).
Proof.
  revert s. induction p as [|[c [n|n|n]|] p IH]; intros s; simpl; [by eexists|..].
  - intros (u & s' & -> & <- & Hu & Ha). by apply exactly_complete, IH.
  - intros (u & s' & -> & Hl & Hu & Ha).
    assert (exists u1 u2, u = u1 ++ u2 /\ length u1 = n) as (u1 & u2 & -> & <-).
    { exists (take n u), (drop n u).
      split; [by rewrite take_drop|rewrite length_take; lia]. }
    apply Forall_app in Hu as [Hu1 Hu2]. rewrite <- app_assoc.
    apply exactly_complete; [done|]. apply greedy_complete; [done|]. by apply IH.
  - intros (u & s' & -> & Hl & Hu & Ha).
    assert (exists u1 u2, u = u1 ++ u2 /\ length u1 = n) as (u1 & u2 & -> & <-).
    { exists (take n u), (drop n u).
      split; [by rewrite take_drop|rewrite length_take; lia]. }
    apply Forall_app in Hu as [Hu1 Hu2]. rewrite <- app_assoc.
    apply exactly_complete; [done|]. apply lazy_complete; [done|]. by apply IH.
  - intros [-> Ha]. by apply IH.
Qed.

(** The backtracking matcher finds a match exactly when the text has the
    shape of the pattern. *)
Lemma re_match_accepts (p : pattern) (s : text) :
  re_match p s = true <-> accepts p s.
Proof.
  rewrite re_match_Some. split.
  - intros [m Hm]. by apply match_here_accepts in Hm.
  - intros H. apply accepts_match_here in H as [m Hm]. eauto.
Qed.

(** ** The e-mail validator, by the shape of the text *)

Lemma validate_email_re_match (e : text) :
  validate_email e = re_match email_pattern e.
Proof.
  destruct (re_match email_pattern e) eqn:E.
  - pose proof (re_match_email_chars e E) as He.
    destruct e as [|a e]; [done|].
    unfold validate_email. by rewrite E, email_chars_not_suspicious.
  - destruct e as [|a e]; [done|]. unfold validate_email. by rewrite E.
Qed.

Lemma validate_email_shape_iff (e : text) :
  validate_email e = true <->
  exists local domain tld tail,
    e = local ++ "@"%char :: domain ++ "."%char :: tld ++ tail
    /\ local <> [] /\ Forall (fun x => email_local x = true) local
    /\ domain <> [] /\ Forall (fun x => email_domain x = true) domain
    /\ (2 <= length tld)%nat /\ Forall (fun x => is_letter x = true) tld
    /\ (tail = [] \/ tail = ["010"%char]).
Proof.
  rewrite validate_email_re_match, re_match_accepts.
  unfold email_pattern. cbn [accepts]. split.
  - intros (l & s1 & -> & Hl & Hlc & a & s2 & -> & Ha & Hac
            & d & s3 & -> & Hd & Hdc & b & s4 & -> & Hb & Hbc
            & tl & s5 & -> & Ht & Htc & Hend%at_eos_inv & _).
    destruct a as [|a0 [|a1 a2]]; [simpl in Ha; lia| |simpl in Ha; lia].
    destruct b as [|b0 [|b1 b2]]; [simpl in Hb; lia| |simpl in Hb; lia].
    apply Forall_cons in Hac as [<-%eqc_eq _].
    apply Forall_cons in Hbc as [<-%eqc_eq _].
    exists l, d, tl, s5. simpl.
    split; [done|]. split; [intros ->; simpl in Hl; lia|]. split; [done|].
    split; [intros ->; simpl in Hd; lia|]. done.
  - intros (l & d & tl & tail & -> & Hl & Hlc & Hd & Hdc & Ht & Htc & Hend).
    exists l, ("@"%char :: d ++ "."%char :: tl ++ tail).
    split; [done|]. split; [destruct l; [done|simpl; lia]|]. split; [done|].
    exists ["@"%char], (d ++ "."%char :: tl ++ tail).
    split; [done|]. split; [done|]. split; [by repeat constructor|].
    exists d, ("."%char :: tl ++ tail).
    split; [done|]. split; [destruct d; [done|simpl; lia]|]. split; [done|].
    exists ["."%char], (tl ++ tail).
    split; [done|]. split; [done|]. split; [by repeat constructor|].
    exists tl, tail.
    split; [done|]. split; [done|]. split; [done|].
    split; [|done]. by destruct Hend as [-> | ->].
Qed.

(** X14. [validate_email] accepts exactly the texts made of a non-empty
    local part of letters, digits and [._%+-], an at sign, a non-empty
    domain of letters, digits, dots and hyphens, a dot and at least two
    letters, with or without one newline after them. *)
Theorem validate_email_shape (e : text) :
  validate_email e = true <->
  exists local domain tld tail,
    e = local ++ "@"%char :: domain ++ "."%char :: tld ++ tail
    /\ local <> [] /\ Forall (fun x => email_local x = true) local
    /\ domain <> [] /\ Forall (fun x => email_domain x = true) domain
    /\ (2 <= length tld)%nat /\ Forall (fun x => is_letter x = true) tld
    /\ (tail = [] \/ tail = ["010"%char]).
Proof. apply validate_email_shape_iff. Qed.

(** X15. An address [validate_email] accepts, and that holds no newline, is
    accepted with a newline put after it as well. *)
Theorem validate_email_lets_final_newline (e : text) :
  validate_email e = true -> "010"%char ∉ e ->
  validate_email (e ++ ["010"%char]) = true.
Proof.
  intros (l & d & tl & tail & -> & Hl & Hlc & Hd & Hdc & Ht & Htc & Hend)
    %validate_email_shape_iff Hnl.
  destruct Hend as [-> | ->].
  - apply validate_email_shape_iff. exists l, d, tl, ["010"%char].
    rewrite app_nil_r. rewrite <- !app_assoc. simpl. rewrite <- !app_assoc.
    simpl. eauto 10.
  - exfalso. apply Hnl. apply elem_of_app. right. right.
    apply elem_of_app. right. right. apply elem_of_app. right. by left.
Qed.

Lemma validate_email_lets_final_newline_witness :
  validate_email (txt "user@example.com" ++ ["010"%char]) = true.
Proof.
  apply (validate_email_lets_final_newline (txt "user@example.com"));
    [vm_compute; reflexivity|].
  apply (bool_decide_eq_false_1 _). vm_compute. reflexivity.
Defined.

Lemma email_char_harmless (x : ascii) :
  email_char x = true ->
  x ∉ ["<"; ">"; "034"; "'"; "&"; ":"; "="]%char.
Proof.
  intros H Hin.
  repeat (apply elem_of_cons in Hin as [->|Hin]; [by vm_compute in H|]).
  by apply elem_of_nil in Hin.
Qed.

(** X16. An address [validate_email] accepts, in which neither [onload] nor
    [onerror] occurs, comes out of [sanitize_input] as it went in, but for a
    newline at its end. *)
Theorem sanitize_input_keeps_valid_email (e : text) :
  validate_email e = true ->
  contains (txt "onload") e = false -> contains (txt "onerror") e = false ->
  sanitize_input e = strip e.
Proof.
  rewrite validate_email_re_match. intros He%re_match_email_chars Hl Hr.
  rewrite Forall_forall in He.
  apply sanitize_input_of_harmless; [|..|done|done].
  - apply Forall_forall. intros c Hc Hsp.
    apply (email_char_harmless c (He c Hc)).
    destruct Hsp as [->|[->|[->|[->| ->]]]]; set_solver.
  - intros Hc. apply (email_char_harmless _ (He _ Hc)). set_solver.
  - intros Hc. apply (email_char_harmless _ (He _ Hc)). set_solver.
Qed.

Lemma sanitize_input_keeps_valid_email_witness :
  sanitize_input (txt "j.doe+club@sru-mail.example.org")
    = txt "j.doe+club@sru-mail.example.org".
Proof.
  rewrite (sanitize_input_keeps_valid_email (txt "j.doe+club@sru-mail.example.org"));
    vm_compute; reflexivity.
Defined.

(** ** The server: what every request keeps *)

Section Keeps.
Context (R : world -> world -> Prop) `{!PreOrder R}.

Lemma keeps_ret {A : Type} (a : A) : keeps R (mret a).
Proof. intros w. simpl. reflexivity. Qed.

Lemma keeps_raise {A : Type} (ex : exn) : keeps R (raise (A:=A) ex).
Proof. intros w. simpl. reflexivity. Qed.

Lemma keeps_bind {A B : Type} (m : M A) (f : A -> M B) :
  keeps R m -> (forall a, keeps R (f a)) -> keeps R (m ≫= f).
Proof.
  intros Hm Hf w. unfold mbind, M_bind. specialize (Hm w).
  destruct (m w) as [[a|ex] w1]; simpl in *; [|done].
  etrans; [exact Hm|apply Hf].
Qed.

Lemma keeps_try_except {A : Type} (body : M A) (handler : exn -> M A) :
  keeps R body -> (forall ex, keeps R (handler ex)) ->
  keeps R (try_except body handler).
Proof.
  intros Hb Hh w. unfold try_except. specialize (Hb w).
  destruct (body w) as [[a|ex] w1]; simpl in *; [done|].
  etrans; [exact Hb|apply Hh].
Qed.

Lemma keeps_when (b : bool) (m : M unit) : keeps R m -> keeps R (when b m).
Proof. intros H. destruct b; [done|]. intros w. simpl. reflexivity. Qed.

Lemma keeps_read_sm {A : Type} (f : Manager.t -> A) : keeps R (read_sm f).
Proof. intros w. simpl. reflexivity. Qed.

Lemma keeps_session_has (key : string) : keeps R (session_has key).
Proof. intros w. simpl. reflexivity. Qed.

Lemma keeps_session_get (key : string) : keeps R (session_get key).
Proof.
  intros w. unfold session_get. destruct (session w !! key); simpl; reflexivity.
Qed.

Lemma keeps_read_file (e : env) (name : string) : keeps R (read_file e name).
Proof.
  intros w. unfold read_file. destruct (files e !! name); simpl; reflexivity.
Qed.
End Keeps.

Lemma validate_csrf_token_rest (sid : string) (tok : option string) (now : Q)
    (sm : t) :
  rate_limit_data (validate_csrf_token sid tok now sm).2 = rate_limit_data sm
  /\ blocked_ips (validate_csrf_token sid tok now sm).2 = blocked_ips sm.
Proof.
  unfold validate_csrf_token. destruct (csrf_tokens sm !! sid); [|done].
  destruct (bool_decide _); [done|]. by destruct (Qltb 3600 _).
Qed.

Lemma rate_limit_blocked_ips (ip : string) (limit : Z) (window now : Q) (sm : t) :
  blocked_ips (rate_limit ip limit window now sm).2 = blocked_ips sm.
Proof. rewrite rate_limit_unfold. cbv zeta. by destruct (limit <=? _)%Z. Qed.

#[local] Instance blocklist_grows_preorder : PreOrder blocklist_grows.
Proof.
  split; [intros w; unfold blocklist_grows; set_solver|].
  intros w1 w2 w3 H1 H2. unfold blocklist_grows in *. set_solver.
Qed.

#[local] Instance session_id_stays_preorder : PreOrder session_id_stays.
Proof.
  split; [by intros w v|]. intros w1 w2 w3 H1 H2 v Hv. by apply H2, H1.
Qed.

(** A call of a method of the manager that leaves the block list alone
    keeps both relations. *)
Lemma invoke_blocklist {A : Type} (c : call) (f : Manager.t -> A * Manager.t) :
  (forall s, blocked_ips (f s).2 = blocked_ips s) ->
  keeps blocklist_grows (invoke c f).
Proof.
  intros Hf w. unfold invoke, blocklist_grows. specialize (Hf (sm w)).
  destruct (f (sm w)) as [a sm']. simpl in *. by rewrite Hf.
Qed.

Lemma invoke_session {A : Type} (c : call) (f : Manager.t -> A * Manager.t) :
  keeps session_id_stays (invoke c f).
Proof. intros w v. unfold invoke. by destruct (f (sm w)). Qed.

Lemma invoke_pure_keeps (R : world -> world -> Prop) {A : Type} (c : call) (a : A) :
  (forall w, R w (World (sm w) (session w) (calls w ++ [c]))) ->
  keeps R (invoke_pure c a).
Proof. intros H w. apply H. Qed.

(** The gatekeeper gives the session an identifier only when it has
    none. *)
Lemma ensure_session_stays (v : string) (rest : M unit) :
  keeps session_id_stays rest ->
  keeps session_id_stays
    (known ← session_has "session_id";
     when (negb known) (session_set "session_id" v);; rest).
Proof.
  intros Hrest w. unfold mbind, M_bind, session_has, session_set, when.
  case_bool_decide as Hk; simpl; [apply Hrest|].
  etrans; [|apply Hrest]. intros v1 Hv1. simpl in *.
  destruct Hk. by eexists.
Qed.

Ltac keeps_go :=
  repeat match goal with
  | |- keeps ?R _ =>
      first
        [ apply ensure_session_stays
        | apply (keeps_ret R) | apply (keeps_raise R) | apply (keeps_read_sm R)
        | apply (keeps_session_has R) | apply (keeps_session_get R)
        | apply (keeps_read_file R)
        | apply invoke_session
        | apply invoke_blocklist;
            first [ intros ?; apply rate_limit_blocked_ips
                  | intros ?; apply validate_csrf_token_rest
                  | by intros ? ]
        | apply invoke_pure_keeps; by intros ?
        | apply (keeps_when R)
        | apply (keeps_try_except R); [|intros ?]
        | apply (keeps_bind R); [|intros ?]
        | match goal with
          | |- keeps _ (if ?b then _ else _) => destruct b
          end ]
  end.

Lemma security_checks_blocklist (e : env) (req : request) :
  keeps blocklist_grows (security_checks e req).
Proof.
  unfold security_checks. cbv zeta. keeps_go;
    intros w; unfold blocklist_grows; simpl; set_solver.
Qed.

Lemma dispatch_request_blocklist (e : env) (req : request) :
  keeps blocklist_grows (dispatch_request e req).
Proof.
  unfold dispatch_request, index, styles, script, submit_form, limiter_limit,
    submit_form_body, health_check.
  cbv zeta. keeps_go; intros w; unfold blocklist_grows; simpl; set_solver.
Qed.

Lemma handle_request_world (e : env) (req : request) (w : world) :
  (handle_request e req w).2 =
    ((check_request_limit e req;;
      security_checks e req;; dispatch_request e req) w).2.
Proof.
  unfold handle_request, full_dispatch_request. cbv zeta.
  match goal with |- context [match ?x with _ => _ end] =>
    by destruct x as [[rv|ex] w'] end.
Qed.

(** X17. No request ever takes an address off the block list: after the
    server has handled a request, whatever it was, every address that was
    blocked is blocked still. *)
Theorem block_list_only_grows (e : env) (req : request) (w : world) :
  blocked_ips (sm w) ⊆ blocked_ips (sm (handle_request e req w).2).
Proof.
  rewrite handle_request_world.
  assert (keeps blocklist_grows
    (check_request_limit e req;;
     security_checks e req;; dispatch_request e req)) as H; [|apply H].
  apply (keeps_bind blocklist_grows);
    [unfold check_request_limit; keeps_go|intros _].
  apply (keeps_bind blocklist_grows); [apply security_checks_blocklist|intros _].
  apply dispatch_request_blocklist.
Qed.

Lemma security_checks_session (e : env) (req : request) :
  keeps session_id_stays (security_checks e req).
Proof.
  unfold security_checks. cbv zeta. keeps_go; by intros w v.
Qed.

Lemma dispatch_request_session (e : env) (req : request) :
  keeps session_id_stays (dispatch_request e req).
Proof.
  unfold dispatch_request, index, styles, script, submit_form, limiter_limit,
    submit_form_body, health_check.
  cbv zeta. keeps_go; by intros w v.
Qed.

(** X18. A session that has an identifier keeps it: no request replaces or
    removes the [session_id] the session came with. *)
Theorem session_id_is_kept (e : env) (req : request) (w : world) (v : string) :
  session w !! "session_id" = Some v ->
  session (handle_request e req w).2 !! "session_id" = Some v.
Proof.
  rewrite handle_request_world. revert v.
  assert (keeps session_id_stays
    (check_request_limit e req;;
     security_checks e req;; dispatch_request e req)) as H; [|apply H].
  apply (keeps_bind session_id_stays);
    [unfold check_request_limit; keeps_go|intros _].
  apply (keeps_bind session_id_stays); [apply security_checks_session|intros _].
  apply dispatch_request_session.
Qed.

Lemma session_id_is_kept_witness :
  let e := Env 100 7 100 100 100 100 "new-uuid" "tok" ∅ true in
  let req := Request "10.0.0.1" "GET" "/" ∅ (txt "<Request>") in
  session (handle_request e req (World init {["session_id" := "old"]} [])).2
    !! "session_id" = Some "old".
Proof.
  intros e req. by apply (session_id_is_kept e req).
Defined.

(** X19. [security_checks] lets a request through only when its address is
    not on the block list, the limiter admits it and its text is not
    suspicious; and then the session has an identifier and the block list is
    what it was. *)
Theorem security_checks_admits_only (e : env) (req : request) (w w' : world)
    (u : unit) :
  security_checks e req w = (Ok u, w') ->
  (remote_addr req ∉ blocked_ips (sm w))
  /\ (rate_limit (remote_addr req) 20 60 (t_rate e) (sm w)).1 = true
  /\ is_suspicious_request (repr req) = false
  /\ is_Some (session w' !! "session_id")
  /\ blocked_ips (sm w') = blocked_ips (sm w).
Proof.
  unfold security_checks, try_except, mbind, M_bind, read_sm, invoke, invoke_pure,
    session_has, session_set, modify_sm, when, abort, raise, mret, M_ret.
  case_bool_decide as Hb; simpl; [done|].
  pose proof (rate_limit_blocked_ips (remote_addr req) 20 60 (t_rate e) (sm w)) as Hbl.
  destruct (rate_limit (remote_addr req) 20 60 (t_rate e) (sm w)) as [[] sm1];
    simpl in *; [|done].
  destruct (is_suspicious_request (repr req)); simpl; [done|].
  case_bool_decide as Hs; simpl;
    destruct (Qltb (Qmod (t_tick e) 300) 1); simpl; intros [= _ <-]; simpl;
    repeat split; try done; by rewrite ?lookup_insert_eq.
Qed.

Lemma security_checks_admits_only_witness :
  let e := Env 100 7 100 100 100 100 "uuid" "tok" ∅ true in
  let req := Request "10.0.0.1" "GET" "/" ∅ (txt "<Request 'http://h/' [GET]>") in
  (rate_limit "10.0.0.1" 20 60 100 init).1 = true
  /\ is_Some (session (security_checks e req (World init ∅ [])).2 !! "session_id").
Proof.
  intros e req.
  destruct (security_checks_admits_only e req (World init ∅ [])
              (security_checks e req (World init ∅ [])).2 tt)
    as (_ & H1 & _ & H2 & _); [vm_compute; reflexivity|].
  exact (conj H1 H2).
Defined.

(** X20. A request from an address of the block list is answered before any
    other check: it takes no slot of the limiter, opens no session, reaches
    no handler, and leaves the whole state as it was; the answer is the JSON
    body of the handler for 500, with the security headers. *)
Theorem blocked_request_changes_nothing (e : env) (req : request) (w : world) :
  limiter_allows e = true ->
  remote_addr req ∈ blocked_ips (sm w) ->
  handle_request e req w = (add_security_headers (error_handler 500), w).
Proof.
  intros Hl Hb. unfold handle_request, full_dispatch_request. cbv zeta.
  unfold mbind at 1, M_bind at 1, check_request_limit.
  rewrite Hl, andb_false_r. simpl.
  unfold mbind at 1, M_bind at 1. by rewrite security_checks_blocked.
Qed.

Lemma blocked_request_changes_nothing_witness :
  let e := Env 100 0 100 100 100 100 "uuid" "tok" ∅ true in
  let req := Request "10.0.0.1" "POST" "/submit-form" ∅ (txt "<Request>") in
  let w := World (set_blocked_ips (fun _ => {["10.0.0.1"]}) init) ∅ [] in
  handle_request e req w = (add_security_headers (error_handler 500), w).
Proof.
  intros e req w. apply (blocked_request_changes_nothing e req w); [reflexivity|].
  apply (bool_decide_eq_true_1 _). vm_compute. reflexivity.
Defined.

(** ** The form handler and the page that feeds it *)

Ltac in_list :=
  simpl; repeat first [apply list_elem_of_here | apply list_elem_of_further].

(** The wrapper of [@limiter.limit] by cases of the limiter's verdict. *)
Lemma submit_form_admitted (e : env) (req : request) (w : world) :
  limiter_allows e = true -> submit_form e req w = submit_form_body e req w.
Proof. intros Hl. unfold submit_form, limiter_limit. by rewrite Hl. Qed.

Lemma submit_form_refused (e : env) (req : request) (w : world) :
  limiter_allows e = false -> submit_form e req w = (Raise (HTTPException 429), w).
Proof. intros Hl. unfold submit_form, limiter_limit. by rewrite Hl. Qed.

Lemma submit_form_body_answers (e : env) (req : request) (w : world) :
  exists r w', submit_form_body e req w = (Ok r, w')
    /\ status r ∈ [200; 400; 403; 500]%Z.
Proof.
  unfold submit_form_body, try_except, mbind, M_bind, session_get, invoke, invoke_pure,
    mret, M_ret.
  destruct (session w !! "session_id") as [sid|]; simpl;
    [|do 2 eexists; split; [done|in_list]].
  destruct (validate_csrf_token _ _ _ _) as [[] sm1]; simpl;
    [|do 2 eexists; split; [done|in_list]].
  destruct (validate_name _); simpl; [|do 2 eexists; split; [done|in_list]].
  destruct (validate_email _); simpl; [|do 2 eexists; split; [done|in_list]].
  case_bool_decide; simpl; do 2 eexists; (split; [done|in_list]).
Qed.

(** X21. The only exception the view of [/submit-form] lets out is the 429
    of its own limit: when the limit of five per minute refuses the request,
    the view raises 429 and has touched nothing; when it lets the request
    through, the view returns a response, whatever the request and the state,
    and its status is 200, 400, 403 or 500. *)
Theorem submit_form_answers_or_429 (e : env) (req : request) (w : world) :
  (limiter_allows e = false
   /\ submit_form e req w = (Raise (HTTPException 429), w))
  \/ (limiter_allows e = true
      /\ exists r w', submit_form e req w = (Ok r, w')
           /\ status r ∈ [200; 400; 403; 500]%Z).
Proof.
  destruct (limiter_allows e) eqn:Hl.
  - right. split; [done|]. rewrite submit_form_admitted by done.
    apply submit_form_body_answers.
  - left. split; [done|]. by apply submit_form_refused.
Qed.

(** X22. For a request that the limit on [/submit-form] lets through, with a
    session at hand: the view returns a response, and its status is 200
    exactly when the CSRF token validates, the name and the e-mail pass their
    validators and the year is one of the five; the message of the
    acknowledgement is then made of the sanitized name and e-mail. *)
Theorem submit_form_accepts_iff (e : env) (req : request) (w : world)
    (sid : string) :
  limiter_allows e = true ->
  session w !! "session_id" = Some sid ->
  exists r w', submit_form e req w = (Ok r, w') /\
  (status r = 200%Z <->
     (validate_csrf_token sid (form req !! "csrf_token") (t_validate e) (sm w)).1
       = true
     /\ validate_name (form_field req "name") = true
     /\ validate_email (form_field req "email") = true
     /\ form_field req "year" ∈ years)
  /\ (status r = 200%Z ->
        payload r =
          Json [("success", JBool true);
                ("message",
                 JStr (thanks (sanitize_input (form_field req "name"))
                         (sanitize_input (form_field req "email"))))]).
Proof.
  intros Hl Hs. rewrite submit_form_admitted by done.
  unfold submit_form_body, try_except, mbind, M_bind, session_get, invoke,
    invoke_pure, mret, M_ret.
  rewrite Hs.
  destruct (validate_csrf_token _ _ _ _) as [[] sm1]; simpl;
    [|do 2 eexists; split; [done|]; simpl;
      split; [split; [done|by intros []]|done]].
  destruct (validate_name _); simpl;
    [|do 2 eexists; split; [done|]; simpl;
      split; [split; [done|by intros (_ & ? & _)]|done]].
  destruct (validate_email _); simpl;
    [|do 2 eexists; split; [done|]; simpl;
      split; [split; [done|by intros (_ & _ & ? & _)]|done]].
  case_bool_decide as Hy; simpl; do 2 eexists; (split; [done|]); simpl.
  - done.
  - split; [split; [done|by intros (_ & _ & _ & ?)]|done].
Qed.

Lemma submit_form_accepts_iff_witness :
  let e := Env 0 0 0 0 100 0 "u" "fresh" ∅ true in
  let req := Request "10.0.0.1" "POST" "/submit-form"
               {["csrf_token" := "tok"; "name" := " Mary O'Neil ";
                 "email" := "mary@example.org"; "year" := "junior"]} [] in
  let w := World (generate_csrf_token "s1" "tok" 0 init).2
             {["session_id" := "s1"]} [] in
  exists r w', submit_form e req w = (Ok r, w') /\ status r = 200%Z
    /\ payload r =
         Json [("success", JBool true);
               ("message",
                JStr (txt "Thank you for joining, Mary ONeil! We'll be in touch at mary@example.org soon."))].
Proof.
  intros e req w.
  destruct (submit_form_accepts_iff e req w "s1" eq_refl eq_refl)
    as (r & w' & E & H1 & H2).
  assert (status r = 200%Z) as H200.
  { apply H1. repeat split; try (vm_compute; reflexivity).
    apply (bool_decide_eq_true_1 _). vm_compute. reflexivity. }
  exists r, w'. split; [done|]. split; [done|].
  rewrite (H2 H200). vm_compute. reflexivity.
Defined.

Lemma index_succeeds (e : env) (w w' : world) (r : Response) (sid : string) :
  session w !! "session_id" = Some sid ->
  index e w = (Ok r, w') ->
  exists content,
    files e !! "index.html" = Some content
    /\ payload r =
         Content (str_replace (txt "</form>") (hidden_field (fresh_token e)) content)
    /\ w' = World (generate_csrf_token sid (fresh_token e) (t_issue e) (sm w)).2
              (session w) (calls w ++ [CallGenerateCsrf]).
Proof.
  intros Hs.
  unfold index, try_except, mbind, M_bind, session_get, invoke, read_file,
    mret, M_ret, raise.
  rewrite Hs. simpl.
  destruct (files e !! "index.html") as [content|]; simpl; [|done].
  intros [= <- <-]. by exists content.
Qed.

(** X23. The token the main page issues opens the form: after [index] has
    served the page, a submission in the same session that presents this
    token at most 3600 seconds after the issue, and that the limit on
    [/submit-form] lets through, is not refused with 403: the token
    validates, and the view answers 200 or 400. *)
Theorem index_then_submit_form (e e' : env) (req : request) (w w' : world)
    (r : Response) (sid : string) :
  session w !! "session_id" = Some sid ->
  index e w = (Ok r, w') ->
  form req !! "csrf_token" = Some (fresh_token e) ->
  (t_validate e' - t_issue e <= 3600)%Q ->
  limiter_allows e' = true ->
  (validate_csrf_token sid (Some (fresh_token e)) (t_validate e') (sm w')).1 = true
  /\ exists r' w'', submit_form e' req w' = (Ok r', w'')
       /\ status r' ∈ [200; 400]%Z.
Proof.
  intros Hs Hi Hf Ht Hl.
  destruct (index_succeeds e w w' r sid Hs Hi) as (content & _ & _ & ->).
  assert ((validate_csrf_token sid (Some (fresh_token e)) (t_validate e')
             (generate_csrf_token sid (fresh_token e) (t_issue e) (sm w)).2).1
          = true) as Hv.
  { rewrite validate_csrf_token_lookup. simpl. rewrite lookup_insert_eq. simpl.
    rewrite bool_decide_eq_true_2 by done.
    by rewrite (proj2 (Qltb_ge _ _) Ht). }
  split; [done|]. rewrite submit_form_admitted by done.
  unfold submit_form_body, try_except, mbind, M_bind, session_get, invoke,
    invoke_pure, mret, M_ret.
  simpl session. rewrite Hs, Hf. simpl sm.
  destruct (validate_csrf_token _ _ _ _) as [valid sm1]. simpl in Hv. subst valid.
  simpl.
  destruct (validate_name _); simpl; [|do 2 eexists; split; [done|in_list]].
  destruct (validate_email _); simpl; [|do 2 eexists; split; [done|in_list]].
  case_bool_decide; simpl; do 2 eexists; (split; [done|in_list]).
Qed.

Lemma index_then_submit_form_witness :
  let e := Env 0 0 0 1000 0 0 "u" "fresh-token" {["index.html" := txt "<form></form>"]}
             true in
  let e' := Env 0 0 0 0 4600 0 "u" "other" ∅ true in
  let req := Request "10.0.0.1" "POST" "/submit-form"
               {["csrf_token" := "fresh-token"]} [] in
  let w := World init {["session_id" := "s1"]} [] in
  (validate_csrf_token "s1" (Some "fresh-token") 4600 (sm (index e w).2)).1 = true
  /\ exists r' w'', submit_form e' req (index e w).2 = (Ok r', w'')
       /\ status r' ∈ [200; 400]%Z.
Proof.
  intros e e' req w.
  destruct (index e w) as [[r|ex] w'] eqn:E; [|by vm_compute in E].
  exact (index_then_submit_form e e' req w w' r "s1" eq_refl E eq_refl
           ltac:(discriminate) eq_refl).
Defined.

Lemma starts_with_self (rep rest : text) : starts_with rep (rep ++ rest) = true.
Proof. induction rep as [|a rep IH]; [done|]. simpl. by rewrite eqc_refl. Qed.

Lemma contains_cons (old : text) (x : ascii) (s : text) :
  contains old s = true -> contains old (x :: s) = true.
Proof. apply (occurs_app _ [x]). Qed.

(** Replacing a word that occurs leaves the replacement in the result. *)
Lemma str_replace_puts (old rep s : text) :
  old <> [] -> contains old s = true -> contains rep (str_replace old rep s) = true.
Proof.
  intros Hold. unfold str_replace, contains at 1.
  induction s as [|x s IH]; simpl.
  - unfold prefix_len. destruct old; [done|]. done.
  - unfold prefix_len at 1 3.
    destruct (starts_with old (x :: s)) eqn:E.
    + intros _. destruct old as [|a old]; [done|]. simpl length.
      apply occurs_here. unfold prefix_len. rewrite starts_with_self. by eexists.
    + intros H. apply contains_cons. by apply IH.
Qed.

(** X24. The page [index] serves holds the hidden field with the issued
    token whenever the file has a closing form tag, and is the file as it
    stands on disk when it has none (the token is then issued, and goes
    nowhere). *)
Theorem index_injects_token (e : env) (w w' : world) (r : Response)
    (sid : string) :
  session w !! "session_id" = Some sid ->
  index e w = (Ok r, w') ->
  exists content served,
    files e !! "index.html" = Some content
    /\ payload r = Content served
    /\ (contains (txt "</form>") content = true ->
        contains (hidden_field (fresh_token e)) served = true)
    /\ (contains (txt "</form>") content = false -> served = content)
    /\ csrf_tokens (sm w') !! sid
       = Some (CsrfRecord (fresh_token e) (t_issue e)).
Proof.
  intros Hs Hi.
  destruct (index_succeeds e w w' r sid Hs Hi) as (content & Hf & Hp & ->).
  exists content, (str_replace (txt "</form>") (hidden_field (fresh_token e)) content).
  split; [done|]. split; [done|]. split; [|split].
  - by apply str_replace_puts.
  - apply subst_matches_id.
  - simpl. apply lookup_insert_eq.
Qed.

Lemma index_injects_token_witness :
  let e := Env 0 0 0 1000 0 0 "u" "T0k" {["index.html" := txt "<form>x</form>"]}
             true in
  let w := World init {["session_id" := "s1"]} [] in
  exists served, payload (add_security_headers
                   (match (index e w).1 with Ok r => r | Raise _ => error_handler 500 end))
                 = Content served
    /\ contains (hidden_field "T0k") served = true.
Proof.
  intros e w.
  destruct (index e w) as [[r|ex] w'] eqn:E; [|by vm_compute in E].
  destruct (index_injects_token e w w' r "s1" eq_refl E)
    as (content & served & Hf & Hp & Hyes & _).
  exists served. split; [done|]. apply Hyes.
  injection Hf as <-. vm_compute. reflexivity.
Defined.

(** ** The gatekeeper and the block list *)




(** ** The statuses the server answers with *)

Section ComesTo.
Context {A B : Type}.

Lemma comes_to_bind (E : exn -> Prop) (P : A -> Prop) (Q : B -> Prop)
    (m : M A) (f : A -> M B) :
  comes_to E P m -> (forall a, comes_to E Q (f a)) -> comes_to E Q (m ≫= f).
Proof.
  intros Hm Hf w. unfold mbind, M_bind. specialize (Hm w).
  destruct (m w) as [[a|ex] w1]; simpl in *; [apply Hf|done].
Qed.

Lemma comes_to_try_except (E E' : exn -> Prop) (P : A -> Prop)
    (body : M A) (handler : exn -> M A) :
  comes_to E' P body -> (forall ex, comes_to E P (handler ex)) ->
  comes_to E P (try_except body handler).
Proof.
  intros Hb Hh w. unfold try_except. specialize (Hb w).
  destruct (body w) as [[a|ex] w1]; simpl in *; [done|apply Hh].
Qed.

End ComesTo.

Lemma comes_to_abort {A : Type} (codes : list Z) (P : A -> Prop) (code : Z) :
  code ∈ codes -> comes_to (aborts_with codes) P (abort code).
Proof. intros H w. simpl. by exists code. Qed.

(** A handler wrapped in [try ... except Exception: abort(500)] returns what
    its body returns or raises the internal server error. *)
Lemma comes_to_guarded (codes : list Z) (P : Response -> Prop) (body : M Response) :
  500%Z ∈ codes ->
  comes_to (fun _ => True) P body ->
  comes_to (aborts_with codes) P (try_except body (fun _ => abort 500)).
Proof.
  intros Hc H. eapply comes_to_try_except; [exact H|].
  intros ex. by apply comes_to_abort.
Qed.

Lemma comes_to_any {A : Type} (m : M A) : comes_to (fun _ => True) (fun _ => True) m.
Proof. intros w. by destruct (m w).1. Qed.

Lemma index_comes_to (e : env) :
  comes_to (aborts_with [429; 500]%Z) (fun r => status r ∈ [200]%Z) (index e).
Proof.
  apply comes_to_guarded; [in_list|].
  eapply comes_to_bind; [apply comes_to_any|intros sid].
  eapply comes_to_bind; [apply comes_to_any|intros tok].
  eapply comes_to_bind; [apply comes_to_any|intros content].
  intros w. simpl. in_list.
Qed.

Lemma static_comes_to (e : env) (name ctype : string) :
  comes_to (aborts_with [429; 500]%Z) (fun r => status r ∈ [200]%Z)
    (try_except
       (content ← read_file e name;
        mret (set_header "Content-Type" ctype (make_response content)))
       (fun _ => abort 500)).
Proof.
  apply comes_to_guarded; [in_list|].
  eapply comes_to_bind; [apply comes_to_any|intros content].
  intros w. simpl. in_list.
Qed.

Lemma health_check_comes_to (e : env) :
  comes_to (aborts_with [429; 500]%Z) (fun r => status r ∈ [200]%Z)
    (health_check e).
Proof. intros w. simpl. in_list. Qed.

Lemma submit_form_comes_to (e : env) (req : request) :
  comes_to (aborts_with [429; 500]%Z) (fun r => status r ∈ [200; 400; 403; 500]%Z)
    (submit_form e req).
Proof.
  intros w. destruct (limiter_allows e) eqn:Hl.
  - rewrite submit_form_admitted by done.
    by destruct (submit_form_body_answers e req w) as (r & w' & -> & H).
  - rewrite submit_form_refused by done. simpl.
    exists 429%Z. split; [done|in_list].
Qed.

Lemma check_request_limit_comes_to (e : env) (req : request) :
  comes_to (aborts_with [429; 500]%Z) (fun _ => True) (check_request_limit e req).
Proof.
  unfold check_request_limit.
  destruct (default_limited req && negb (limiter_allows e)); simpl;
    [apply comes_to_abort; in_list|by intros w].
Qed.

Lemma security_checks_comes_to (e : env) (req : request) :
  comes_to (aborts_with [429; 500]%Z) (fun _ => True) (security_checks e req).
Proof.
  unfold security_checks. eapply comes_to_try_except; [apply comes_to_any|].
  intros ex. apply comes_to_abort. in_list.
Qed.

Lemma status_error_handler (code : Z) : status (error_handler code) = code.
Proof.
  unfold error_handler.
  repeat match goal with
  | |- context [(code =? ?c)%Z] => destruct (Z.eqb_spec code c) as [->|]
  end; reflexivity.
Qed.

(** The status of the response, from what the before-request functions and
    the view of the route come to. *)
Lemma handle_request_status (e : env) (req : request) (w : world)
    (oks codes : list Z) :
  comes_to (aborts_with codes) (fun r => status r ∈ oks) (dispatch_request e req) ->
  comes_to (aborts_with codes) (fun _ => True) (check_request_limit e req) ->
  comes_to (aborts_with codes) (fun _ => True) (security_checks e req) ->
  status (handle_request e req w).1 ∈ oks ++ codes.
Proof.
  intros Hd Hc Hs.
  assert (comes_to (aborts_with codes) (fun r => status r ∈ oks)
    (check_request_limit e req;; security_checks e req;; dispatch_request e req))
    as H.
  { eapply comes_to_bind; [exact Hc|intros _].
    eapply comes_to_bind; [exact Hs|intros _]. exact Hd. }
  specialize (H w). unfold handle_request, full_dispatch_request. cbv zeta.
  match goal with |- context [match ?x with _ => _ end] =>
    destruct x as [[rv|ex] w'] end; simpl in *.
  - apply elem_of_app. by left.
  - destruct H as (code & -> & H). simpl. rewrite status_error_handler.
    apply elem_of_app. by right.
Qed.

(** X26. The statuses of the five routes, whatever the state and the outside
    world: a [GET] of [/], [/styles.css], [/script.js] or [/health] is
    answered with 200, 429 or 500, and a [POST] of [/submit-form] with 200,
    400, 403, 429 or 500. *)
Theorem route_status_is_known (e : env) (req : request) (w : world) :
  (method req = "GET" ->
   path req ∈ ["/"; "/styles.css"; "/script.js"; "/health"] ->
   status (handle_request e req w).1 ∈ [200; 429; 500]%Z)
  /\ (method req = "POST" -> path req = "/submit-form" ->
      status (handle_request e req w).1 ∈ [200; 400; 403; 429; 500]%Z).
Proof.
  split.
  - intros Hm Hp.
    apply (handle_request_status e req w [200]%Z [429; 500]%Z);
      [|apply check_request_limit_comes_to|apply security_checks_comes_to].
    unfold dispatch_request. cbv zeta. rewrite Hm.
    repeat (apply elem_of_cons in Hp as [->|Hp];
      [simpl; first [apply index_comes_to | apply static_comes_to
                    | apply health_check_comes_to]|]).
    by apply elem_of_nil in Hp.
  - intros Hm Hp.
    assert (status (handle_request e req w).1
            ∈ [200; 400; 403; 500]%Z ++ [429; 500]%Z) as H.
    { apply (handle_request_status e req w);
        [|apply check_request_limit_comes_to|apply security_checks_comes_to].
      unfold dispatch_request. cbv zeta. rewrite Hm, Hp. simpl.
      apply submit_form_comes_to. }
    simpl in H.
    repeat (apply elem_of_cons in H as [->|H]; [in_list|]).
    by apply elem_of_nil in H.
Qed.

(** ** The URL checks *)

Lemma N_below_256 (P : N -> Prop) :
  Forall P (map N.of_nat (seq 0 256)) -> forall n, (n < 256)%N -> P n.
Proof.
  intros H n Hn. rewrite Forall_forall in H. apply H.
  apply list_elem_of_fmap. exists (N.to_nat n). split; [lia|].
  apply elem_of_seq. lia.
Qed.

Ltac below_256 :=
  apply N_below_256; apply (bool_decide_unpack _); vm_compute; exact I.

Lemma decimal_no_dot (n : N) : (n < 256)%N -> "."%char ∉ decimal n.
Proof. revert n. below_256. Qed.

Lemma binary_value_bits8 (n : N) :
  (n < 256)%N -> binary_value (bits8 (Z.of_N n)) = Z.of_N n.
Proof. revert n. below_256. Qed.

Lemma bits8_bits (n : Z) : forallb is_bit (bits8 n) = true.
Proof.
  unfold bits8. cbn [map forallb].
  repeat match goal with |- context [Z.testbit n ?i] => destruct (Z.testbit n i) end;
    reflexivity.
Qed.

Lemma split_on_single (sep : ascii) (s : text) :
  sep ∉ s -> split_on sep s = [s].
Proof.
  induction s as [|x s IH]; [done|]. intros H. simpl.
  rewrite eqc_ne by (intros ->; apply H; by left).
  rewrite IH; [done|]. intros Hs. apply H. by right.
Qed.

Lemma split_on_app (sep : ascii) (s rest : text) :
  sep ∉ s -> split_on sep (s ++ sep :: rest) = s :: split_on sep rest.
Proof.
  induction s as [|x s IH]; intros H; simpl.
  - by rewrite eqc_refl.
  - rewrite eqc_ne by (intros ->; apply H; by left).
    rewrite IH; [done|]. intros Hs. apply H. by right.
Qed.

Lemma split_on_dotted (a b c d : N) :
  Forall (fun n => (n < 256)%N) [a; b; c; d] ->
  split_on "." (dotted a b c d) = [decimal a; decimal b; decimal c; decimal d].
Proof.
  rewrite !Forall_cons. intros (Ha & Hb & Hc & Hd & _). unfold dotted.
  rewrite !split_on_app, split_on_single by by apply decimal_no_dot. done.
Qed.

Lemma binary_value_acc (acc : Z) (s : text) :
  foldl (fun acc c => 2 * acc + (if eqc "1" c then 1 else 0))%Z acc s
    = (acc * 2 ^ Z.of_nat (length s) + binary_value s)%Z.
Proof.
  unfold binary_value. revert acc. induction s as [|x s IH]; intros acc.
  - simpl. lia.
  - cbn [foldl length]. rewrite IH, (IH (2 * 0 + _)%Z).
    rewrite Nat2Z.inj_succ, Z.pow_succ_r by lia. lia.
Qed.

Lemma binary_value_app (s1 s2 : text) :
  binary_value (s1 ++ s2)
    = (binary_value s1 * 2 ^ Z.of_nat (length s2) + binary_value s2)%Z.
Proof.
  unfold binary_value at 1. rewrite foldl_app. apply binary_value_acc.
Qed.

Section Conforming.
Context (L : library) (HL : conforms L).

(** The number the code computes for an address in dotted decimal. *)
Lemma ip_to_int_dotted (a b c d : N) :
  Forall (fun n => (n < 256)%N) [a; b; c; d] ->
  ip_to_int L (dotted a b c d) = Some (address a b c d).
Proof.
  intros H. unfold ip_to_int. rewrite split_on_dotted by done.
  rewrite !Forall_cons in H. destruct H as (Ha & Hb & Hc & Hd & _).
  destruct HL as (Hint & Hbin & Hint2).
  cbn [mapM]. rewrite !Hint by done. simpl.
  rewrite !Hbin by done. rewrite app_nil_r.
  rewrite Hint2.
  - f_equal. rewrite !binary_value_app, !binary_value_bits8 by done.
    unfold address. simpl length.
    change (2 ^ Z.of_nat (8 + (8 + 8)))%Z with (2 ^ 24)%Z.
    change (2 ^ Z.of_nat (8 + 8))%Z with (2 ^ 16)%Z.
    change (2 ^ Z.of_nat 8)%Z with (2 ^ 8)%Z. lia.
  - done.
  - by rewrite !forallb_app, !bits8_bits.
Qed.

Lemma ip_in_range_dotted_bool (a b c d s1 s2 s3 s4 e1 e2 e3 e4 : N) :
  Forall (fun n => (n < 256)%N) [a; b; c; d; s1; s2; s3; s4; e1; e2; e3; e4] ->
  ip_in_range L (dotted a b c d) (dotted s1 s2 s3 s4) (dotted e1 e2 e3 e4)
    = ((address s1 s2 s3 s4 <=? address a b c d)%Z
       && (address a b c d <=? address e1 e2 e3 e4)%Z).
Proof.
  rewrite !Forall_cons.
  intros (? & ? & ? & ? & ? & ? & ? & ? & ? & ? & ? & ? & _).
  unfold ip_in_range. by rewrite !ip_to_int_dotted by by repeat constructor.
Qed.

Lemma is_private_ip_resolved (host : text) (a b c d : N) :
  Forall (fun n => (n < 256)%N) [a; b; c; d] ->
  gethostbyname L host = Some (dotted a b c d) ->
  is_private_ip L host = rfc1918 a b.
Proof.
  intros H Hg. unfold is_private_ip, private_ranges. rewrite Hg.
  cbn [existsb fst snd].
  change (txt "10.0.0.0") with (dotted 10 0 0 0).
  change (txt "10.255.255.255") with (dotted 10 255 255 255).
  change (txt "172.16.0.0") with (dotted 172 16 0 0).
  change (txt "172.31.255.255") with (dotted 172 31 255 255).
  change (txt "192.168.0.0") with (dotted 192 168 0 0).
  change (txt "192.168.255.255") with (dotted 192 168 255 255).
  rewrite !Forall_cons in H. destruct H as (Ha & Hb & Hc & Hd & _).
  rewrite !ip_in_range_dotted_bool
    by (repeat (constructor; [first [done|reflexivity]|]); constructor).
  unfold address, rfc1918.
  change (2 ^ 24)%Z with 16777216%Z. change (2 ^ 16)%Z with 65536%Z.
  change (2 ^ 8)%Z with 256%Z.
  apply eq_true_iff_eq.
  rewrite !orb_true_iff, !andb_true_iff, !Z.leb_le, !N.eqb_eq, !N.leb_le. lia.
Qed.
End Conforming.

(** X27. For a library that conforms, [ip_in_range] on three addresses in
    dotted decimal, each number below 256, answers true exactly when the
    address lies between the two bounds, bounds included, as 32-bit
    numbers. *)
Theorem ip_in_range_compares_addresses (L : library)
    (a b c d s1 s2 s3 s4 e1 e2 e3 e4 : N) :
  conforms L ->
  Forall (fun n => (n < 256)%N) [a; b; c; d; s1; s2; s3; s4; e1; e2; e3; e4] ->
  ip_in_range L (dotted a b c d) (dotted s1 s2 s3 s4) (dotted e1 e2 e3 e4) = true
  <-> (address s1 s2 s3 s4 <= address a b c d <= address e1 e2 e3 e4)%Z.
Proof.
  intros HL H. rewrite ip_in_range_dotted_bool by done.
  rewrite andb_true_iff, !Z.leb_le. done.
Qed.

Lemma sample_library_conforms : conforms sample_library.
Proof.
  split; [|split].
  - below_256.
  - done.
  - intros s Hs Hb. simpl. destruct s; [done|]. by rewrite Hb.
Qed.

Lemma ip_in_range_compares_addresses_witness :
  ip_in_range sample_library (txt "192.168.7.20") (txt "192.168.0.0")
    (txt "192.168.255.255") = true.
Proof.
  apply (ip_in_range_compares_addresses sample_library
           192 168 7 20 192 168 0 0 192 168 255 255 sample_library_conforms).
  - repeat (constructor; [reflexivity|]). constructor.
  - split; discriminate.
Defined.

(** X28. For a library that conforms, [is_private_ip] of a host name that
    resolves to [a.b.c.d] answers true exactly for the addresses of the
    three private ranges: [10.x.x.x], [172.16.x.x] to [172.31.x.x] and
    [192.168.x.x]; a name that does not resolve is not private. *)
Theorem is_private_ip_ranges (L : library) (host : text) :
  conforms L ->
  (forall a b c d,
     Forall (fun n => (n < 256)%N) [a; b; c; d] ->
     gethostbyname L host = Some (dotted a b c d) ->
     is_private_ip L host = rfc1918 a b)
  /\ (gethostbyname L host = None -> is_private_ip L host = false).
Proof.
  intros HL. split.
  - intros a b c d. by apply is_private_ip_resolved.
  - intros Hg. unfold is_private_ip. by rewrite Hg.
Qed.

Lemma is_private_ip_ranges_witness :
  is_private_ip sample_library (txt "intranet.example") = true
  /\ is_private_ip sample_library (txt "www.example.org") = false
  /\ is_private_ip sample_library (txt "no.such.host") = false.
Proof.
  split; [|split].
  - destruct (is_private_ip_ranges sample_library (txt "intranet.example")
                sample_library_conforms) as [H _].
    rewrite (H 172 20 1 9)%N; [reflexivity| |reflexivity].
    repeat (constructor; [reflexivity|]). constructor.
  - destruct (is_private_ip_ranges sample_library (txt "www.example.org")
                sample_library_conforms) as [H _].
    rewrite (H 93 184 216 34)%N; [reflexivity| |reflexivity].
    repeat (constructor; [reflexivity|]). constructor.
  - destruct (is_private_ip_ranges sample_library (txt "no.such.host")
                sample_library_conforms) as [_ H].
    apply H. reflexivity.
Defined.

(** X29. For a library that conforms, a URL that parses to the scheme http
    or https and to a host name that is none of [localhost], [127.0.0.1] and
    [0.0.0.0] is accepted by [validate_url] when the name resolves to an
    address outside the three private ranges, refused when it resolves
    inside them, and accepted when it does not resolve at all. *)
Theorem validate_url_by_resolution (L : library) (url scheme host : text) :
  conforms L ->
  url <> [] -> host <> [] ->
  urlparse L url = Some (scheme, Some host) ->
  scheme ∈ [txt "http"; txt "https"] ->
  host ∉ [txt "localhost"; txt "127.0.0.1"; txt "0.0.0.0"] ->
  (forall a b c d,
     Forall (fun n => (n < 256)%N) [a; b; c; d] ->
     gethostbyname L host = Some (dotted a b c d) ->
     validate_url L url = negb (rfc1918 a b))
  /\ (gethostbyname L host = None -> validate_url L url = true).
Proof.
  intros HL Hu Hh Hp Hs Hn.
  assert (validate_url L url = negb (is_private_ip L host)) as ->.
  { unfold validate_url. destruct url as [|u0 url]; [done|]. rewrite Hp.
    rewrite (bool_decide_eq_true_2 _ Hs). simpl negb. cbv iota.
    rewrite bool_decide_eq_false_2.
    - destruct host as [|h0 host]; [done|]. by destruct (is_private_ip _ _).
    - intros Hin. apply Hn.
      repeat (apply elem_of_cons in Hin as [[= ->]|Hin]; [in_list|]).
      by apply elem_of_nil in Hin. }
  split.
  - intros a b c d H Hg. by rewrite (is_private_ip_resolved L HL host a b c d).
  - intros Hg. unfold is_private_ip. by rewrite Hg.
Qed.

Lemma validate_url_by_resolution_witness :
  validate_url sample_library (txt "https://www.example.org/join") = true
  /\ validate_url sample_library (txt "http://intranet.example/admin") = false.
Proof.
  split.
  - destruct (validate_url_by_resolution sample_library
                (txt "https://www.example.org/join") (txt "https")
                (txt "www.example.org") sample_library_conforms) as [H _];
      [done|done|reflexivity|in_list| |].
    + apply (bool_decide_eq_false_1 _). vm_compute. reflexivity.
    + rewrite (H 93 184 216 34)%N; [reflexivity| |reflexivity].
      repeat (constructor; [reflexivity|]). constructor.
  - destruct (validate_url_by_resolution sample_library
                (txt "http://intranet.example/admin") (txt "http")
                (txt "intranet.example") sample_library_conforms) as [H _];
      [done|done|reflexivity|in_list| |].
    + apply (bool_decide_eq_false_1 _). vm_compute. reflexivity.
    + rewrite (H 172 20 1 9)%N; [reflexivity| |reflexivity].
      repeat (constructor; [reflexivity|]). constructor.
Defined.
